(** * Rod cutting (task_2.py) and 3D-print queue batching (task_1.py)

    A shallow embedding of the two Python modules and the properties of
    their results.  Python integers are [Z]; Python lists are [list];
    the memo dictionary of [rod_cutting_memo] is a [gmap] threaded
    through the recursion; exceptions and the fuel of the unbounded
    constructs (recursion, [while]) are explicit in [outcome].  The
    interpreter's own limits (recursion depth, memory) are not part of
    the model. *)

From stdpp Require Import base gmap list strings.
From Stdlib Require Import ZArith Lia Permutation Sorted Floats.

Local Open Scope Z_scope.

(** ** Python values, exceptions and sequences *)

Module Py.

(** The only exception the modelled code can raise is the built-in
    [IndexError] of a list subscript. *)
Inductive exn := IndexError.

(** Result of running a piece of code: a value, a raised exception, or
    exhausted fuel (for recursion and [while], proved unreachable). *)
Inductive outcome (A : Type) :=
  | Ok (a : A)
  | Raise (e : exn)
  | OutOfFuel.
Arguments Ok {A} a.
Arguments Raise {A} e.
Arguments OutOfFuel {A}.

#[global] Instance outcome_bind : MBind outcome := λ A B k m,
  match m with
  | Ok a => k a
  | Raise e => Raise e
  | OutOfFuel => OutOfFuel
  end.

#[global] Instance outcome_ret : MRet outcome := λ A a, Ok a.

(** A number as the solvers see it: an [int], or the float
    [-float('inf')] that initialises the running maximum. *)
Inductive num := NegInf | Int (z : Z).

(** [int + int]; with [-inf] on either side the sum is [-inf]. *)
Definition num_add (a b : num) : num :=
  match a, b with
  | Int x, Int y => Int (x + y)
  | _, _ => NegInf
  end.

(** [a > b] *)
Definition num_gt (a b : num) : bool :=
  match a, b with
  | Int x, Int y => bool_decide (y < x)
  | Int _, NegInf => true
  | NegInf, _ => false
  end.

(** [a >= b] *)
Definition num_ge (a b : num) : bool :=
  match a, b with
  | Int x, Int y => bool_decide (y ≤ x)
  | _, NegInf => true
  | NegInf, Int _ => false
  end.

(** [l[i]]: a negative index counts from the end; out of range raises. *)
Definition index {A} (l : list A) (i : Z) : option nat :=
  let n := Z.of_nat (length l) in
  if bool_decide (0 ≤ i) then
    if bool_decide (i < n) then Some (Z.to_nat i) else None
  else
    if bool_decide (0 ≤ n + i) then Some (Z.to_nat (n + i)) else None.

Definition getitem {A} (l : list A) (i : Z) : outcome A :=
  match index l i with
  | Some k => match l !! k with Some x => Ok x | None => Raise IndexError end
  | None => Raise IndexError
  end.

(** [l[i] = x] *)
Definition setitem {A} (l : list A) (i : Z) (x : A) : outcome (list A) :=
  match index l i with
  | Some k => Ok (<[k := x]> l)
  | None => Raise IndexError
  end.

(** [range(lo, hi)]: lo, lo+1, ..., hi-1 (empty when hi <= lo). *)
Definition range (lo hi : Z) : list Z := seqZ lo (hi - lo).

(** [range(hi, lo, -1)]: hi, hi-1, ..., lo+1 (empty when hi <= lo). *)
Definition range_down (hi lo : Z) : list Z := reverse (seqZ (lo + 1) (hi - lo)).

(** [[x] * n]: empty when n <= 0. *)
Definition repeat_list {A} (x : A) (n : Z) : list A := replicate (Z.to_nat n) x.

(** [for i in l: s = body(i, s)], stopping at the first exception. *)
Fixpoint for_each {I S} (body : I → S → outcome S) (l : list I) (s : S) : outcome S :=
  match l with
  | [] => Ok s
  | i :: l' => s' ← body i s; for_each body l' s'
  end.

(** [sum(l)] *)
Definition sum (l : list Z) : Z := foldr Z.add 0 l.

(** [len(l)] *)
Definition len {A} (l : list A) : Z := Z.of_nat (length l).

End Py.

(** ** task_2.py: the two rod-cutting solvers *)

Module Task2.
Import Py.

(** The dictionary returned by both solvers. *)
Record SolveResult := {
  max_profit : num;
  cuts : list Z;
  number_of_cuts : Z
}.

(** [len(cuts) - 1 if cuts else 0] *)
Definition count_cuts (cuts : list Z) : Z :=
  match cuts with
  | [] => 0
  | _ => len cuts - 1
  end.

(** *** rod_cutting_memo *)

(** One pass of the loop body of [helper(n)], for the candidate first
    cut [i]; [rec] is the recursive call [helper]. The loop variables
    are [(max_profit, best_cuts)], the memo is threaded alongside. *)
Definition helper_body
    (rec : Z → gmap Z (num * list Z) → outcome ((num * list Z) * gmap Z (num * list Z)))
    (prices : list Z) (n i : Z)
    (st : (num * list Z) * gmap Z (num * list Z))
    : outcome ((num * list Z) * gmap Z (num * list Z)) :=
  let '((max_profit, best_cuts), memo) := st in
  current_profit ← getitem prices (i - 1);
  '((remaining_profit, remaining_cuts), memo) ← rec (n - i) memo;
  let total_profit := num_add (Int current_profit) remaining_profit in
  if num_gt total_profit max_profit
  then Ok ((total_profit, i :: remaining_cuts), memo)
  else Ok ((max_profit, best_cuts), memo).

(** [helper(n)] with the memo as explicit state; [fuel] bounds the
    recursion depth. *)
Fixpoint helper (fuel : nat) (prices : list Z) (n : Z) (memo : gmap Z (num * list Z))
    : outcome ((num * list Z) * gmap Z (num * list Z)) :=
  match fuel with
  | O => OutOfFuel
  | S fuel' =>
    if bool_decide (n = 0) then Ok ((Int 0, []), memo)
    else match memo !! n with
    | Some r => Ok (r, memo)
    | None =>
      '(r, memo) ← for_each (helper_body (helper fuel' prices) prices n)
                            (range 1 (n + 1)) ((NegInf, []), memo);
      Ok (r, <[n := r]> memo)
    end
  end.

(** The recursion of [helper(length)] is at most [length + 1] deep. *)
Definition helper_fuel (length : Z) : nat := S (Z.to_nat length).

(** The memo dictionary as it stands when [helper(length)] returns. *)
Definition memo_after (length : Z) (prices : list Z) : outcome (gmap Z (num * list Z)) :=
  '(_, memo) ← helper (helper_fuel length) prices length ∅;
  Ok memo.

Definition rod_cutting_memo (length : Z) (prices : list Z) : outcome SolveResult :=
  '((profit, cuts), _) ← helper (helper_fuel length) prices length ∅;
  let number_of_cuts := count_cuts cuts in
  Ok {| max_profit := profit; cuts := cuts; number_of_cuts := number_of_cuts |}.

(** *** rod_cutting_table *)

(** Body of the inner loop [for i in range(j, 0, -1)]; the loop
    variables are [(best, first_cut)]. *)
Definition table_inner (prices : list Z) (dp : list num) (j i : Z)
    (st : num * list Z) : outcome (num * list Z) :=
  let '(best, first_cut) := st in
  p ← getitem prices (i - 1);
  d ← getitem dp (j - i);
  let profit := num_add (Int p) d in
  if num_ge profit best
  then first_cut ← setitem first_cut j i; Ok (profit, first_cut)
  else Ok (best, first_cut).

(** Body of the outer loop [for j in range(1, length + 1)]; the loop
    variables are [(dp, first_cut)]. *)
Definition table_outer (prices : list Z) (j : Z)
    (st : list num * list Z) : outcome (list num * list Z) :=
  let '(dp, first_cut) := st in
  '(best, first_cut) ← for_each (table_inner prices dp j) (range_down j 0) (NegInf, first_cut);
  dp ← setitem dp j best;
  Ok (dp, first_cut).

(** The tables [(dp, first_cut)] as they stand after the nested loops. *)
Definition build_tables (length : Z) (prices : list Z) : outcome (list num * list Z) :=
  let dp := repeat_list (Int 0) (length + 1) in
  let first_cut := repeat_list 0 (length + 1) in
  dp ← setitem dp 0 (Int 0);
  for_each (table_outer prices) (range 1 (length + 1)) (dp, first_cut).

(** [while rem > 0: cuts.append(first_cut[rem]); rem -= first_cut[rem]] *)
Fixpoint reconstruct (fuel : nat) (first_cut : list Z) (rem : Z) (cuts : list Z)
    : outcome (list Z) :=
  if bool_decide (0 < rem) then
    match fuel with
    | O => OutOfFuel
    | S fuel' =>
      c ← getitem first_cut rem;
      reconstruct fuel' first_cut (rem - c) (cuts ++ [c])
    end
  else Ok cuts.

Definition rod_cutting_table (length : Z) (prices : list Z) : outcome SolveResult :=
  '(dp, first_cut) ← build_tables length prices;
  cuts ← reconstruct (Z.to_nat length) first_cut length [];
  let cuts := reverse cuts in
  let number_of_cuts := count_cuts cuts in
  profit ← getitem dp length;
  Ok {| max_profit := profit; cuts := cuts; number_of_cuts := number_of_cuts |}.

(** *** What the results mean *)

(** The inputs both solvers are specified for. *)
Definition valid_input (length : Z) (prices : list Z) : Prop :=
  0 ≤ length ∧ length ≤ len prices ∧ Forall (λ p, 0 ≤ p) prices.

(** The shape every result is specified to have for a rod of [length]. *)
Definition well_formed_result (length : Z) (r : SolveResult) : Prop :=
  (0 < length → sum (cuts r) = length) ∧
  (cuts r = [] ↔ length = 0) ∧
  Forall (λ i, 1 ≤ i) (cuts r) ∧
  number_of_cuts r = Z.max 0 (len (cuts r) - 1).

Section Spec.
Variable prices : list Z.

(** Sale price of a segment of length [i], that is [prices[i-1]]. *)
Definition price_of (i : Z) : Z := default 0 (prices !! Z.to_nat (i - 1)).

(** Total sale price of the segments of a cut list. *)
Definition profit_of (c : list Z) : Z := sum (price_of <$> c).

(** [c] cuts a rod of length [n] into whole segments. *)
Definition valid_cuts (c : list Z) (n : Z) : Prop :=
  Forall (λ i, 1 ≤ i) c ∧ sum c = n.

(** [c] is a most profitable way of cutting a rod of length [n]. *)
Definition optimal (c : list Z) (n : Z) : Prop :=
  valid_cuts c n ∧ ∀ c', valid_cuts c' n → profit_of c' ≤ profit_of c.

(** [i] is the smallest first segment of a most profitable cutting of
    a rod of length [n]. *)
Definition smallest_best_first_cut (n i : Z) : Prop :=
  (∃ rest, optimal (i :: rest) n) ∧
  ∀ i' rest', optimal (i' :: rest') n → i ≤ i'.

(** The cut list that takes, at every stage, the smallest first
    segment among the most profitable choices for what remains. *)
Inductive canon : Z → list Z → Prop :=
  | canon_nil : canon 0 []
  | canon_cons n i rest :
      1 ≤ i ≤ n →
      canon (n - i) rest →
      (∀ i' c', 1 ≤ i' ≤ n → valid_cuts c' (n - i') →
         price_of i' + profit_of c' ≤ price_of i + profit_of rest) →
      (∀ i' c', 1 ≤ i' < i → valid_cuts c' (n - i') →
         price_of i' + profit_of c' < price_of i + profit_of rest) →
      canon n (i :: rest).

(** Candidates [lo..hi] for the first cut of a rod of length [n] have
    been scanned and [i :: rest] is the one retained: it is at least
    as good as every scanned candidate, and strictly better than the
    scanned candidates below [i]. *)
Definition best_in (n lo hi i : Z) (rest : list Z) : Prop :=
  lo ≤ i ≤ hi ∧ canon (n - i) rest ∧
  (∀ i' c', lo ≤ i' ≤ hi → valid_cuts c' (n - i') →
     price_of i' + profit_of c' ≤ price_of i + profit_of rest) ∧
  (∀ i' c', lo ≤ i' < i → valid_cuts c' (n - i') →
     price_of i' + profit_of c' < price_of i + profit_of rest).

(** Every entry of the memo dictionary is the canonical solution of
    its key, and the keys present are downward closed from 1. *)
Definition memo_ok (m : gmap Z (num * list Z)) : Prop :=
  (∀ k p c, m !! k = Some (p, c) →
     1 ≤ k ≤ len prices ∧ canon k c ∧ p = Int (profit_of c)) ∧
  (∀ k k', is_Some (m !! k) → 1 ≤ k' ≤ k → is_Some (m !! k')).

(** The call [rec(n)] on memo [m] returns the canonical solution of
    [n] and leaves a memo that extends [m] and holds [n]. *)
Definition returns_canon
    (rec : Z → gmap Z (num * list Z) → outcome ((num * list Z) * gmap Z (num * list Z)))
    (n : Z) (m : gmap Z (num * list Z)) : Prop :=
  ∃ c m', rec n m = Ok ((Int (profit_of c), c), m') ∧
    canon n c ∧ memo_ok m' ∧ m ⊆ m' ∧
    (1 ≤ n → m' !! n = Some (Int (profit_of c), c)).

(** Entries [0..t] of the two tables are filled in: [dp[k]] is the
    profit of the canonical solution of [k] and [first_cut[k]] its
    first segment. *)
Definition table_ok (size : nat) (t : Z) (dp : list num) (first_cut : list Z) : Prop :=
  length dp = size ∧ length first_cut = size ∧
  ∀ k, 0 ≤ k ≤ t → ∃ c,
    canon k c ∧ dp !! Z.to_nat k = Some (Int (profit_of c)) ∧
    (1 ≤ k → ∃ i rest, c = i :: rest ∧ first_cut !! Z.to_nat k = Some i).
End Spec.

End Task2.

(** ** task_1.py: batching of the 3D-print queue *)

Module Task1.
Import Py.

(** The arithmetic the code does on volumes ([0], [+], [<=]).  The
    dataclass declares [volume: float] and the tests pass integers;
    the batching is modelled once for any such number type. *)
Class Volume (V : Type) := {
  vzero : V;
  vadd : V → V → V;
  vle : V → V → bool
}.

#[global] Instance int_volume : Volume Z :=
  {| vzero := 0; vadd := Z.add; vle := Z.leb |}.

#[global] Instance float_volume : Volume PrimFloat.float :=
  {| vzero := PrimFloat.zero; vadd := PrimFloat.add; vle := PrimFloat.leb |}.

Section Printing.
Context {V : Type} `{Volume V}.

Record PrintJob := {
  id : string;
  volume : V;
  priority : Z;
  print_time : Z
}.

Record PrinterConstraints := {
  max_volume : V;
  max_items : Z
}.

(** The dictionary [optimize_printing] returns. *)
Record PrintPlan := {
  print_order : list string;
  total_time : Z
}.

(** [jobs.sort(key=lambda job: job.priority)]: a stable sort, given
    here as the insertion sort that puts a job before the first job
    of equal or larger priority value among those that followed it. *)
Fixpoint insert_job (job : PrintJob) (jobs : list PrintJob) : list PrintJob :=
  match jobs with
  | [] => [job]
  | x :: jobs' =>
    if bool_decide (priority job ≤ priority x) then job :: x :: jobs'
    else x :: insert_job job jobs'
  end.

Definition sort_by_priority (jobs : list PrintJob) : list PrintJob :=
  foldr insert_job [] jobs.

(** The variables of the loop: [optimal_order], [total_time],
    [current_group], [current_group_volume], [current_group_time]. *)
Definition loop_state : Type :=
  list string * Z * list PrintJob * V * Z.

(** The test [len(current_group) < printer.max_items and
    current_group_volume + job.volume <= printer.max_volume]. *)
Definition fits (printer : PrinterConstraints) (st : loop_state) (job : PrintJob) : bool :=
  let '(_, _, current_group, current_group_volume, _) := st in
  bool_decide (len current_group < max_items printer) &&
  vle (vadd current_group_volume (volume job)) (max_volume printer).

(** [if current_group: optimal_order.extend(...); total_time += ...] *)
Definition flush (optimal_order : list string) (total_time : Z)
    (current_group : list PrintJob) (current_group_time : Z) : list string * Z :=
  match current_group with
  | [] => (optimal_order, total_time)
  | _ => (optimal_order ++ (id <$> current_group), total_time + current_group_time)
  end.

(** Body of [for job in jobs]. *)
Definition step (printer : PrinterConstraints) (st : loop_state) (job : PrintJob)
    : loop_state :=
  let '(optimal_order, total_time, current_group,
        current_group_volume, current_group_time) := st in
  if fits printer st job then
    (optimal_order, total_time, current_group ++ [job],
     vadd current_group_volume (volume job),
     Z.max current_group_time (print_time job))
  else
    let '(optimal_order, total_time) :=
      flush optimal_order total_time current_group current_group_time in
    (optimal_order, total_time, [job], volume job, print_time job).

Definition initial : loop_state := ([], 0, [], vzero, 0).

(** The code after the loop: the last group is flushed and the
    result dictionary built. *)
Definition finish (st : loop_state) : PrintPlan :=
  let '(optimal_order, total_time, current_group, _, current_group_time) := st in
  let '(optimal_order, total_time) :=
    flush optimal_order total_time current_group current_group_time in
  {| print_order := optimal_order; total_time := total_time |}.

Definition optimize_printing (print_jobs : list PrintJob)
    (constraints : PrinterConstraints) : PrintPlan :=
  let jobs := sort_by_priority print_jobs in
  finish (fold_left (step constraints) jobs initial).

(** The ids placed so far: those already in [optimal_order], then
    those of the current group. *)
Definition scheduled (st : loop_state) : list string :=
  let '(optimal_order, _, current_group, _, _) := st in
  optimal_order ++ (id <$> current_group).

(** The printing time so far, the current group included. *)
Definition elapsed (st : loop_state) : Z :=
  let '(_, total_time, current_group, _, current_group_time) := st in
  match current_group with
  | [] => total_time
  | _ => total_time + current_group_time
  end.

(** The job breaks the constraints even in a group of its own. *)
Definition violates_alone (printer : PrinterConstraints) (job : PrintJob) : Prop :=
  max_items printer ≤ 0 ∨
  vle (vadd vzero (volume job)) (max_volume printer) = false.

(** The times in a loop state are sound: nothing negative, and an
    empty current group carries no time. *)
Definition times_ok (st : loop_state) : Prop :=
  let '(_, total_time, current_group, _, current_group_time) := st in
  0 ≤ total_time ∧ 0 ≤ current_group_time ∧
  (current_group = [] → current_group_time = 0).

(** The current group is a single job at most, or it respects both
    limits of the printer. *)
Definition group_within_limits (printer : PrinterConstraints) (st : loop_state) : Prop :=
  let '(_, _, current_group, current_group_volume, _) := st in
  (length current_group ≤ 1)%nat ∨
  (len current_group ≤ max_items printer ∧
   vle current_group_volume (max_volume printer) = true).
End Printing.

Arguments PrintJob V : clear implicits.
Arguments PrinterConstraints V : clear implicits.
Arguments loop_state V : clear implicits.

End Task1.

(** * Properties *)

(** ** Python sequences *)

Module PyFacts.
Import Py.

Lemma bind_Ok {A B} (a : A) (k : A → outcome B) : (Ok a ≫= k) = k a.
Proof. reflexivity. Qed.

Lemma getitem_lookup {A} (l : list A) (i : Z) :
  0 ≤ i →
  getitem l i = match l !! Z.to_nat i with Some x => Ok x | None => Raise IndexError end.
Proof.
  intros Hi. unfold getitem, index.
  rewrite bool_decide_eq_true_2 by done.
  case_bool_decide as Hlt; [done|].
  rewrite lookup_ge_None_2; [done|lia].
Qed.

Lemma getitem_Some {A} (l : list A) (i : Z) (x : A) :
  0 ≤ i → l !! Z.to_nat i = Some x → getitem l i = Ok x.
Proof. intros Hi Hx. by rewrite getitem_lookup, Hx. Qed.

Lemma getitem_out {A} (l : list A) (i : Z) :
  len l ≤ i → getitem l i = Raise IndexError.
Proof.
  intros Hi. unfold len in Hi. rewrite getitem_lookup by lia.
  rewrite lookup_ge_None_2; [done|lia].
Qed.

Lemma setitem_in {A} (l : list A) (i : Z) (x : A) :
  0 ≤ i < len l → setitem l i x = Ok (<[Z.to_nat i := x]> l).
Proof.
  intros [Hi Hlt]. unfold setitem, index, len in *.
  by rewrite !bool_decide_eq_true_2 by done.
Qed.

Lemma setitem_empty {A} (i : Z) (x : A) : setitem [] i x = Raise IndexError.
Proof.
  unfold setitem, index. simpl.
  repeat case_bool_decide; try done; lia.
Qed.

Lemma range_nil lo hi : hi ≤ lo → range lo hi = [].
Proof. intros. unfold range. apply seqZ_nil. lia. Qed.

Lemma range_cons lo hi : lo < hi → range lo hi = lo :: range (lo + 1) hi.
Proof.
  intros. unfold range. rewrite seqZ_cons by lia.
  f_equal. f_equal; lia.
Qed.

Lemma range_app lo mid hi :
  lo ≤ mid ≤ hi → range lo hi = range lo mid ++ range mid hi.
Proof.
  intros. unfold range.
  replace (hi - lo) with ((mid - lo) + (hi - mid)) by lia.
  rewrite seqZ_app by lia. do 2 f_equal. lia.
Qed.

Lemma range_down_nil hi lo : hi ≤ lo → range_down hi lo = [].
Proof. intros. unfold range_down. rewrite seqZ_nil by lia. done. Qed.

Lemma range_down_cons hi lo :
  lo < hi → range_down hi lo = hi :: range_down (hi - 1) lo.
Proof.
  intros. unfold range_down.
  replace (hi - lo) with ((hi - 1 - lo) + 1) at 1 by lia.
  rewrite seqZ_app by lia. rewrite reverse_app.
  rewrite (seqZ_cons _ 1) by lia. rewrite seqZ_nil by lia.
  simpl. f_equal. lia.
Qed.

Lemma for_each_app {I S} (body : I → S → outcome S) (l1 l2 : list I) (s : S) :
  for_each body (l1 ++ l2) s = for_each body l1 s ≫= for_each body l2.
Proof.
  revert s. induction l1 as [|i l1 IH]; intros s; simpl; [done|].
  destruct (body i s); simpl; auto.
Qed.

Lemma sum_cons (x : Z) (l : list Z) : sum (x :: l) = x + sum l.
Proof. reflexivity. Qed.

Lemma sum_app (l1 l2 : list Z) : sum (l1 ++ l2) = sum l1 + sum l2.
Proof. unfold sum. induction l1; simpl; lia. Qed.

Lemma sum_reverse (l : list Z) : sum (reverse l) = sum l.
Proof.
  induction l as [|x l IH]; [done|].
  rewrite reverse_cons, sum_app, IH. unfold sum. simpl. lia.
Qed.

End PyFacts.

(** ** The rod-cutting solvers *)

Module RodCutting.
Import Py PyFacts Task2.

Section Solvers.
Variable prices : list Z.

Local Abbreviation price_of := (price_of prices).
Local Abbreviation profit_of := (profit_of prices).
Local Abbreviation canon := (canon prices).
Local Abbreviation best_in := (best_in prices).
Local Abbreviation memo_ok := (memo_ok prices).
Local Abbreviation table_ok := (table_ok prices).
Local Abbreviation optimal := (optimal prices).

(** *** Cut lists *)

Lemma getitem_price i :
  1 ≤ i ≤ len prices → getitem prices (i - 1) = Ok (price_of i).
Proof.
  intros Hi. unfold len in Hi.
  destruct (lookup_lt_is_Some_2 prices (Z.to_nat (i - 1))) as [x Hx]; [lia|].
  rewrite (getitem_Some _ _ x) by (done || lia).
  unfold Task2.price_of. by rewrite Hx.
Qed.

Lemma profit_of_cons i c : profit_of (i :: c) = price_of i + profit_of c.
Proof. reflexivity. Qed.

Lemma valid_cuts_cons i c n :
  valid_cuts (i :: c) n ↔ 1 ≤ i ∧ valid_cuts c (n - i).
Proof.
  unfold valid_cuts. rewrite Forall_cons. unfold sum. simpl.
  split; intros; destruct_and!; repeat split; auto; lia.
Qed.

Lemma valid_cuts_nonneg c n : valid_cuts c n → 0 ≤ n.
Proof.
  revert n. induction c as [|i c IH]; intros n.
  - intros [_ <-]. done.
  - rewrite valid_cuts_cons. intros [Hi Hc]. apply IH in Hc. lia.
Qed.

Lemma valid_cuts_zero c : valid_cuts c 0 → c = [].
Proof.
  destruct c as [|i c]; [done|].
  rewrite valid_cuts_cons. intros [Hi Hc]. apply valid_cuts_nonneg in Hc. lia.
Qed.

(** A cutting of a rod of positive length has a first segment. *)
Lemma valid_cuts_pos c n :
  valid_cuts c n → 1 ≤ n →
  ∃ i rest, c = i :: rest ∧ 1 ≤ i ≤ n ∧ valid_cuts rest (n - i).
Proof.
  destruct c as [|i rest].
  - intros [_ Hs] Hn. unfold sum in Hs. simpl in Hs. lia.
  - intros Hv _. exists i, rest. apply valid_cuts_cons in Hv as [Hi Hrest].
    pose proof (valid_cuts_nonneg _ _ Hrest). split; [done|]. split; [lia|done].
Qed.

Lemma canon_valid n c : canon n c → valid_cuts c n.
Proof.
  induction 1 as [|n i rest Hi _ IH _ _].
  - by split.
  - apply valid_cuts_cons. split; [lia|done].
Qed.

Lemma canon_nonneg n c : canon n c → 0 ≤ n.
Proof. intros H. eapply valid_cuts_nonneg, canon_valid, H. Qed.

Lemma canon_optimal n c : canon n c → optimal c n.
Proof.
  intros Hc. split; [by apply canon_valid|].
  destruct Hc as [|n i rest Hi Hrest Hle Hlt]; intros c' Hc'.
  - by rewrite (valid_cuts_zero _ Hc').
  - destruct (valid_cuts_pos _ _ Hc') as (i' & rest' & -> & Hi' & Hrest'); [lia|].
    rewrite !profit_of_cons. by apply Hle.
Qed.

(** The canonical cut list of a length is unique. *)
Lemma canon_unique n c1 c2 : canon n c1 → canon n c2 → c1 = c2.
Proof.
  intros H1. revert c2.
  induction H1 as [|n i rest Hi Hrest IH Hle Hlt]; intros c2 H2.
  - by rewrite (valid_cuts_zero _ (canon_valid _ _ H2)).
  - destruct H2 as [|n i2 rest2 Hi2 Hrest2 Hle2 Hlt2]; [lia|].
    assert (i = i2) as <-.
    { destruct (Z.lt_trichotomy i i2) as [Hlt'|[?|Hlt']]; [|done|].
      - specialize (Hlt2 i rest ltac:(lia) (canon_valid _ _ Hrest)).
        specialize (Hle i2 rest2 Hi2 (canon_valid _ _ Hrest2)). lia.
      - specialize (Hlt i2 rest2 ltac:(lia) (canon_valid _ _ Hrest2)).
        specialize (Hle2 i rest Hi (canon_valid _ _ Hrest)). lia. }
    f_equal. by apply IH.
Qed.

(** The first segment of the canonical cut list is the smallest
    first segment of any most profitable cutting. *)
Lemma canon_smallest_first n i rest :
  canon n (i :: rest) → smallest_best_first_cut prices n i.
Proof.
  intros Hc. split.
  - exists rest. by apply canon_optimal.
  - intros i' rest' [Hv' Hopt'].
    inversion Hc as [|n0 i0 rest0 Hi Hrest Hle Hlt]; subst.
    apply valid_cuts_cons in Hv' as [Hi' Hrest'].
    destruct (decide (i ≤ i')) as [|Hn]; [done|exfalso].
    specialize (Hlt i' rest' ltac:(lia) Hrest').
    specialize (Hopt' (i :: rest) (canon_valid _ _ Hc)).
    rewrite !profit_of_cons in Hopt'. lia.
Qed.

(** *** Scanning the candidates for the first cut *)

Lemma best_in_first n i rest : canon (n - i) rest → best_in n i i i rest.
Proof.
  intros Hc. repeat split; try lia.
  - done.
  - intros i' c' Hi' Hc'. assert (i' = i) as -> by lia.
    destruct (canon_optimal _ _ Hc) as [_ Hopt]. specialize (Hopt c' Hc'). lia.
Qed.

(** Forward scan, strict improvement: the new candidate wins. *)
Lemma best_in_up_win n lo hi i rest rest' :
  best_in n lo hi i rest → canon (n - (hi + 1)) rest' →
  price_of i + profit_of rest < price_of (hi + 1) + profit_of rest' →
  best_in n lo (hi + 1) (hi + 1) rest'.
Proof.
  intros (Hi & Hc & Hle & Hlt) Hc' Hwin. repeat split; try lia; [done|..].
  - intros i' c' Hi' Hv'. destruct (decide (i' = hi + 1)) as [->|].
    + destruct (canon_optimal _ _ Hc') as [_ Hopt]. specialize (Hopt c' Hv'). lia.
    + specialize (Hle i' c' ltac:(lia) Hv'). lia.
  - intros i' c' Hi' Hv'. specialize (Hle i' c' ltac:(lia) Hv'). lia.
Qed.

(** Forward scan, no strict improvement: the earlier candidate stays. *)
Lemma best_in_up_keep n lo hi i rest rest' :
  best_in n lo hi i rest → canon (n - (hi + 1)) rest' →
  price_of (hi + 1) + profit_of rest' ≤ price_of i + profit_of rest →
  best_in n lo (hi + 1) i rest.
Proof.
  intros (Hi & Hc & Hle & Hlt) Hc' Hkeep. repeat split; try lia; [done|..].
  - intros i' c' Hi' Hv'. destruct (decide (i' = hi + 1)) as [->|].
    + destruct (canon_optimal _ _ Hc') as [_ Hopt]. specialize (Hopt c' Hv'). lia.
    + specialize (Hle i' c' ltac:(lia) Hv'). lia.
  - intros i' c' Hi' Hv'. by apply Hlt.
Qed.

(** Descending scan, equal or better: the new (smaller) candidate wins. *)
Lemma best_in_down_win n lo hi i rest rest' :
  best_in n lo hi i rest → canon (n - (lo - 1)) rest' →
  price_of i + profit_of rest ≤ price_of (lo - 1) + profit_of rest' →
  best_in n (lo - 1) hi (lo - 1) rest'.
Proof.
  intros (Hi & Hc & Hle & Hlt) Hc' Hwin. repeat split; try lia; [done|].
  intros i' c' Hi' Hv'. destruct (decide (i' = lo - 1)) as [->|].
    + destruct (canon_optimal _ _ Hc') as [_ Hopt]. specialize (Hopt c' Hv'). lia.
    + specialize (Hle i' c' ltac:(lia) Hv'). lia.
Qed.

(** Descending scan, strictly worse: the earlier candidate stays. *)
Lemma best_in_down_keep n lo hi i rest rest' :
  best_in n lo hi i rest → canon (n - (lo - 1)) rest' →
  price_of (lo - 1) + profit_of rest' < price_of i + profit_of rest →
  best_in n (lo - 1) hi i rest.
Proof.
  intros (Hi & Hc & Hle & Hlt) Hc' Hkeep. repeat split; try lia; [done|..].
  - intros i' c' Hi' Hv'. destruct (decide (i' = lo - 1)) as [->|].
    + destruct (canon_optimal _ _ Hc') as [_ Hopt]. specialize (Hopt c' Hv'). lia.
    + specialize (Hle i' c' ltac:(lia) Hv'). lia.
  - intros i' c' Hi' Hv'. destruct (decide (i' = lo - 1)) as [->|].
    + destruct (canon_optimal _ _ Hc') as [_ Hopt]. specialize (Hopt c' Hv'). lia.
    + apply Hlt; [lia|done].
Qed.

(** Once every candidate [1..n] is scanned, the retained one heads
    the canonical cut list. *)
Lemma best_in_all n i rest : best_in n 1 n i rest → canon n (i :: rest).
Proof. intros (Hi & Hc & Hle & Hlt). by constructor. Qed.

(** *** rod_cutting_memo *)

Lemma memo_ok_empty : memo_ok ∅.
Proof.
  split.
  - intros k p c Hk. by rewrite lookup_empty in Hk.
  - intros k k' [x Hk]. by rewrite lookup_empty in Hk.
Qed.

Lemma memo_ok_insert m n c :
  memo_ok m → 1 ≤ n ≤ len prices → canon n c →
  (2 ≤ n → is_Some (m !! (n - 1))) →
  memo_ok (<[n := (Int (profit_of c), c)]> m).
Proof.
  intros [Hval Hclosed] Hn Hc Hprev. split.
  - intros k p c'. rewrite lookup_insert. case_decide as Hk.
    + intros [= <- <-]. rewrite <- Hk. split; [lia|done].
    + apply Hval.
  - intros k k' Hsome Hk'.
    destruct (decide (n = k')) as [<-|Hk1]; [rewrite lookup_insert_eq; by eauto|].
    rewrite lookup_insert_ne by done.
    destruct (decide (n = k)) as [<-|Hk2].
    + apply (Hclosed (n - 1)); [apply Hprev|]; lia.
    + rewrite lookup_insert_ne in Hsome by done. by apply (Hclosed k).
Qed.

Lemma helper_body_step rec n i p c v b m m' :
  1 ≤ i ≤ len prices →
  rec (n - i) m = Ok ((Int p, c), m') →
  helper_body rec prices n i ((v, b), m) =
    if num_gt (Int (price_of i + p)) v
    then Ok ((Int (price_of i + p), i :: c), m')
    else Ok ((v, b), m').
Proof.
  intros Hi Hrec. unfold helper_body.
  rewrite getitem_price by done. simpl. rewrite Hrec. reflexivity.
Qed.

(** The iterations [t+1..n] of the loop of [helper(n)], after the
    candidates [1..t] have been scanned. *)
Lemma helper_loop rec n :
  1 ≤ n ≤ len prices →
  (∀ k m, 0 ≤ k < n → memo_ok m → returns_canon prices rec k m) →
  ∀ (d : nat) t i rest m,
    Z.of_nat d = n - t → 1 ≤ t →
    best_in n 1 t i rest → memo_ok m →
    ∃ i' rest' m',
      for_each (helper_body rec prices n) (range (t + 1) (n + 1))
               ((Int (profit_of (i :: rest)), i :: rest), m)
        = Ok ((Int (profit_of (i' :: rest')), i' :: rest'), m') ∧
      best_in n 1 n i' rest' ∧ memo_ok m' ∧ m ⊆ m'.
Proof.
  intros Hn Hrec. induction d as [|d IH]; intros t i rest m Hd Ht Hbest Hm.
  - assert (t = n) as -> by lia. rewrite range_nil by lia.
    exists i, rest, m. done.
  - rewrite range_cons by lia. cbn [for_each].
    assert (Hk : 0 ≤ n - (t + 1) < n) by lia.
    assert (Hi : 1 ≤ t + 1 ≤ len prices) by lia.
    destruct (Hrec (n - (t + 1)) m Hk Hm) as (c & m1 & Hcall & Hc & Hm1 & Hsub & _).
    rewrite (helper_body_step _ _ _ _ _ _ _ _ _ Hi Hcall).
    rewrite profit_of_cons. cbn [num_gt]. case_bool_decide as Hcmp; rewrite bind_Ok.
    + destruct (IH (t + 1) (t + 1) c m1) as (i' & rest' & m' & Hloop & ? & ? & ?);
        [lia|lia|by eapply best_in_up_win|done|].
      exists i', rest', m'. rewrite <- Hloop. split; [done|].
      split; [done|]. split; [done|]. by etrans.
    + destruct (IH (t + 1) i rest m1) as (i' & rest' & m' & Hloop & ? & ? & ?);
        [lia|lia|eapply best_in_up_keep; [done..|lia]|done|].
      exists i', rest', m'. rewrite profit_of_cons in Hloop. rewrite <- Hloop.
      split; [done|]. split; [done|]. split; [done|]. by etrans.
Qed.

(** [helper(n)] returns the canonical solution of [n], for every
    length the price table covers and with fuel above [n]. *)
Lemma helper_ok fuel :
  ∀ n m, 0 ≤ n ≤ len prices → (Z.to_nat n < fuel)%nat → memo_ok m →
    returns_canon prices (helper fuel prices) n m.
Proof.
  induction fuel as [|fuel IH]; intros n m Hn Hfuel Hm; [lia|].
  unfold returns_canon. cbn [helper]. case_bool_decide as H0.
  - subst n. exists [], m. split; [done|]. split; [constructor|].
    split; [done|]. split; [done|lia].
  - destruct (m !! n) as [[p c]|] eqn:Hlk.
    + destruct (proj1 Hm _ _ _ Hlk) as (Hk & Hc & ->).
      exists c, m. done.
    + assert (Hrec : ∀ k m, 0 ≤ k < n → memo_ok m →
                returns_canon prices (helper fuel prices) k m).
      { intros k m0 Hk Hm0. apply IH; [lia|lia|done]. }
      rewrite range_cons by lia. cbn [for_each].
      assert (Hk : 0 ≤ n - 1 < n) by lia.
      assert (Hi : 1 ≤ 1 ≤ len prices) by lia.
      destruct (Hrec (n - 1) m Hk Hm) as (c1 & m1 & Hcall & Hc1 & Hm1 & Hsub1 & Hin1).
      rewrite (helper_body_step _ _ _ _ _ _ _ _ _ Hi Hcall).
      cbn [num_gt]. rewrite bind_Ok.
      assert (Hn1 : 1 ≤ n ≤ len prices) by lia.
      destruct (helper_loop _ n Hn1 Hrec (Z.to_nat (n - 1)) 1 1 c1 m1)
        as (i & rest & m2 & Hloop & Hbest & Hm2 & Hsub2);
        [lia|lia|by apply best_in_first|done|].
      rewrite profit_of_cons in Hloop. rewrite Hloop, bind_Ok.
      apply best_in_all in Hbest.
      exists (i :: rest), (<[n := (Int (profit_of (i :: rest)), i :: rest)]> m2).
      split; [done|]. split; [done|]. split; [|split].
      * apply memo_ok_insert; [done|lia|done|].
        intros Hn2. exists (Int (profit_of c1), c1).
        eapply lookup_weaken; [|exact Hsub2]. apply Hin1. lia.
      * apply insert_subseteq_r; [done|]. by etrans.
      * intros _. apply lookup_insert_eq.
Qed.

(** *** rod_cutting_table *)

Lemma table_inner_step dp j i d v fc :
  1 ≤ i ≤ len prices → 0 ≤ j - i →
  dp !! Z.to_nat (j - i) = Some (Int d) → 0 ≤ j < len fc →
  table_inner prices dp j i (v, fc) =
    if num_ge (Int (price_of i + d)) v
    then Ok (Int (price_of i + d), <[Z.to_nat j := i]> fc)
    else Ok (v, fc).
Proof.
  intros Hi Hji Hd Hj. unfold table_inner.
  rewrite getitem_price by done. rewrite bind_Ok.
  rewrite (getitem_Some _ _ _ Hji Hd), bind_Ok. cbn [num_add].
  destruct (num_ge _ _); [|done]. by rewrite setitem_in.
Qed.

(** The iterations [s-1..1] of the inner loop for [j], after the
    candidates [j..s] have been scanned. *)
Lemma table_inner_loop size dp fc0 j :
  1 ≤ j ≤ len prices → (Z.to_nat j < size)%nat →
  table_ok size (j - 1) dp fc0 →
  ∀ (d : nat) s i rest,
    Z.of_nat d = s - 1 → s ≤ j →
    best_in j s j i rest →
    ∃ i' rest',
      for_each (table_inner prices dp j) (range_down (s - 1) 0)
               (Int (profit_of (i :: rest)), <[Z.to_nat j := i]> fc0)
        = Ok (Int (profit_of (i' :: rest')), <[Z.to_nat j := i']> fc0) ∧
      best_in j 1 j i' rest'.
Proof.
  intros Hj Hsize (Hldp & Hlfc & Htab).
  induction d as [|d IH]; intros s i rest Hd Hs Hbest.
  - assert (s = 1) as -> by lia. rewrite range_down_nil by lia.
    exists i, rest. done.
  - rewrite range_down_cons by lia. cbn [for_each].
    destruct (Htab (j - (s - 1))) as (c & Hc & Hdp & _); [lia|].
    assert (Hi : 1 ≤ s - 1 ≤ len prices) by lia.
    assert (Hji : 0 ≤ j - (s - 1)) by lia.
    assert (Hjl : 0 ≤ j < len (<[Z.to_nat j := i]> fc0)).
    { unfold len. rewrite length_insert. lia. }
    rewrite (table_inner_step _ _ _ _ _ _ Hi Hji Hdp Hjl).
    rewrite list_insert_insert_eq, profit_of_cons. cbn [num_ge].
    case_bool_decide as Hcmp; rewrite bind_Ok.
    + destruct (IH (s - 1) (s - 1) c) as (i' & rest' & Hloop & ?);
        [lia|lia|by eapply best_in_down_win|].
      exists i', rest'. by rewrite <- Hloop.
    + destruct (IH (s - 1) i rest) as (i' & rest' & Hloop & ?);
        [lia|lia|eapply best_in_down_keep; [done..|lia]|].
      exists i', rest'. rewrite profit_of_cons in Hloop. by rewrite <- Hloop.
Qed.

(** One pass of the outer loop fills in entry [j] of both tables. *)
Lemma table_outer_ok size dp fc j :
  1 ≤ j ≤ len prices → (Z.to_nat j < size)%nat →
  table_ok size (j - 1) dp fc →
  ∃ dp' fc', table_outer prices j (dp, fc) = Ok (dp', fc') ∧
             table_ok size j dp' fc'.
Proof.
  intros Hj Hsize Hok. pose proof Hok as (Hldp & Hlfc & Htab).
  unfold table_outer. rewrite range_down_cons by lia. cbn [for_each].
  destruct (Htab 0) as (c0 & Hc0 & Hdp0 & _); [lia|].
  assert (Hi : 1 ≤ j ≤ len prices) by lia.
  assert (Hji : 0 ≤ j - j) by lia.
  assert (Hjl : 0 ≤ j < len fc) by (unfold len; lia).
  rewrite Z.sub_diag in Hji.
  pose proof (table_inner_step dp j j (profit_of c0) NegInf fc Hi) as Hstep.
  rewrite Z.sub_diag in Hstep. rewrite (Hstep Hji Hdp0 Hjl).
  cbn [num_ge]. rewrite bind_Ok.
  destruct (table_inner_loop size dp fc j Hj Hsize Hok (Z.to_nat (j - 1)) j j c0)
    as (i & rest & Hloop & Hbest); [lia|lia| |].
  { apply best_in_first. by rewrite Z.sub_diag. }
  rewrite profit_of_cons in Hloop. rewrite Hloop, bind_Ok.
  rewrite setitem_in by (unfold len; lia). rewrite bind_Ok.
  eexists _, _. split; [done|].
  split; [by rewrite length_insert|]. split; [by rewrite length_insert|].
  intros k Hk. destruct (decide (k = j)) as [->|Hne].
  - exists (i :: rest). split; [by apply best_in_all|].
    rewrite !list_lookup_insert_eq by lia. split; [done|]. eauto.
  - destruct (Htab k) as (c & Hc & Hdp & Hfc); [lia|].
    exists c. rewrite !list_lookup_insert_ne by lia. done.
Qed.

(** The passes [t+1..T] of the outer loop. *)
Lemma table_loop size T :
  T ≤ len prices → (Z.to_nat T < size)%nat →
  ∀ (d : nat) t dp fc,
    Z.of_nat d = T - t → 0 ≤ t →
    table_ok size t dp fc →
    ∃ dp' fc',
      for_each (table_outer prices) (range (t + 1) (T + 1)) (dp, fc) = Ok (dp', fc') ∧
      table_ok size T dp' fc'.
Proof.
  intros HT Hsize. induction d as [|d IH]; intros t dp fc Hd Ht Hok.
  - assert (t = T) as -> by lia. rewrite range_nil by lia. by exists dp, fc.
  - rewrite range_cons by lia. cbn [for_each].
    destruct (table_outer_ok size dp fc (t + 1)) as (dp1 & fc1 & Hstep & Hok1);
      [lia|lia|by replace (t + 1 - 1) with t by lia|].
    rewrite Hstep, bind_Ok. apply IH; [lia|lia|done].
Qed.

(** The tables on entry to the outer loop. *)
Lemma table_ok_init size :
  (0 < size)%nat →
  table_ok size 0 (<[O := Int 0]> (replicate size (Int 0))) (replicate size 0).
Proof.
  intros Hsize. split; [by rewrite length_insert, length_replicate|].
  split; [by rewrite length_replicate|].
  intros k Hk. assert (k = 0) as -> by lia. exists []. split; [constructor|].
  split; [|lia]. rewrite list_lookup_insert_eq; [done|].
  rewrite length_replicate. lia.
Qed.

(** The nested loops succeed up to any length [T] that both the
    tables and the price table cover. *)
Lemma build_tables_upto length T :
  0 ≤ T ≤ length → T ≤ len prices →
  ∃ dp fc,
    (dp0 ← setitem (repeat_list (Int 0) (length + 1)) 0 (Int 0);
     for_each (table_outer prices) (range 1 (T + 1))
              (dp0, repeat_list 0 (length + 1))) = Ok (dp, fc) ∧
    table_ok (Z.to_nat (length + 1)) T dp fc.
Proof.
  intros HT HTp. unfold repeat_list.
  rewrite setitem_in by (unfold len; rewrite length_replicate; lia).
  rewrite bind_Ok. change (Z.to_nat 0) with O.
  assert (Hsize : (Z.to_nat T < Z.to_nat (length + 1))%nat) by lia.
  apply (table_loop _ T HTp Hsize (Z.to_nat T) 0); [lia|lia|].
  apply table_ok_init. lia.
Qed.

Lemma build_tables_ok length :
  0 ≤ length ≤ len prices →
  ∃ dp fc, build_tables length prices = Ok (dp, fc) ∧
           table_ok (Z.to_nat (length + 1)) length dp fc.
Proof. intros Hl. apply build_tables_upto; lia. Qed.

(** The [while] loop appends the canonical cut list of [rem], and
    [rem] iterations are enough. *)
Lemma reconstruct_ok size length dp fc :
  table_ok size length dp fc →
  ∀ rem c, canon rem c → rem ≤ length →
  ∀ fuel acc, (Z.to_nat rem ≤ fuel)%nat →
    reconstruct fuel fc rem acc = Ok (acc ++ c).
Proof.
  intros (_ & _ & Htab). induction 1 as [|n i rest Hi Hrest IH Hle Hlt];
    intros Hrem fuel acc Hfuel.
  - destruct fuel; simpl; by rewrite app_nil_r.
  - destruct fuel as [|fuel]; [lia|]. cbn [reconstruct].
    rewrite bool_decide_eq_true_2 by lia.
    destruct (Htab n) as (c' & Hc' & _ & Hfc); [lia|].
    destruct Hfc as (i' & rest' & -> & Hfc); [lia|].
    assert (i' :: rest' = i :: rest) as [= -> ->].
    { eapply canon_unique; [done|]. by constructor. }
    rewrite (getitem_Some _ _ i) by (done || lia). rewrite bind_Ok.
    rewrite IH by lia. by rewrite <- app_assoc.
Qed.

(** *** Results on inputs the price table covers *)

Lemma rod_cutting_memo_ok length :
  0 ≤ length ≤ len prices →
  ∃ c, canon length c ∧
    rod_cutting_memo length prices =
      Ok {| max_profit := Int (profit_of c); cuts := c;
            number_of_cuts := count_cuts c |}.
Proof.
  intros Hl.
  destruct (helper_ok (helper_fuel length) length ∅ Hl) as (c & m & Hrun & Hc & _);
    [unfold helper_fuel; lia|apply memo_ok_empty|].
  exists c. split; [done|]. unfold rod_cutting_memo. by rewrite Hrun.
Qed.

Lemma memo_after_ok length :
  0 ≤ length ≤ len prices →
  ∃ m, memo_after length prices = Ok m ∧ memo_ok m ∧
       (1 ≤ length → is_Some (m !! length)).
Proof.
  intros Hl.
  destruct (helper_ok (helper_fuel length) length ∅ Hl) as (c & m & Hrun & _ & Hm & _ & Hin);
    [unfold helper_fuel; lia|apply memo_ok_empty|].
  exists m. unfold memo_after. rewrite Hrun. split; [done|]. split; [done|].
  intros H1. rewrite Hin by done. eauto.
Qed.

Lemma rod_cutting_table_ok length :
  0 ≤ length ≤ len prices →
  ∃ c, canon length c ∧
    rod_cutting_table length prices =
      Ok {| max_profit := Int (profit_of c); cuts := reverse c;
            number_of_cuts := count_cuts (reverse c) |}.
Proof.
  intros Hl. destruct (build_tables_ok length Hl) as (dp & fc & Hbuild & Hok).
  pose proof Hok as (_ & _ & Htab).
  destruct (Htab length) as (c & Hc & Hdp & _); [lia|].
  exists c. split; [done|]. unfold rod_cutting_table.
  rewrite Hbuild, bind_Ok.
  rewrite (reconstruct_ok _ _ _ _ Hok length c Hc) by lia.
  rewrite bind_Ok, app_nil_l.
  by rewrite (getitem_Some _ _ _ (proj1 Hl) Hdp).
Qed.

(** *** Inputs the price table does not cover *)

(** When the rod is one longer than the price table, the loop of
    [helper] reaches the missing price whatever it has retained. *)
Lemma helper_loop_raise rec n :
  n = len prices + 1 →
  (∀ k m, 0 ≤ k < n → memo_ok m → returns_canon prices rec k m) →
  ∀ (d : nat) t st m,
    Z.of_nat d = len prices - t → 0 ≤ t → memo_ok m →
    for_each (helper_body rec prices n) (range (t + 1) (n + 1)) (st, m)
      = Raise IndexError.
Proof.
  intros -> Hrec. induction d as [|d IH]; intros t [v b] m Hd Ht Hm.
  - rewrite range_cons by lia. cbn [for_each]. unfold helper_body.
    rewrite getitem_out by lia. done.
  - rewrite range_cons by lia. cbn [for_each].
    assert (Hk : 0 ≤ len prices + 1 - (t + 1) < len prices + 1) by lia.
    assert (Hi : 1 ≤ t + 1 ≤ len prices) by lia.
    destruct (Hrec _ m Hk Hm) as (c & m1 & Hcall & _ & Hm1 & _).
    rewrite (helper_body_step _ _ _ _ _ v b _ _ Hi Hcall).
    destruct (num_gt _ _); rewrite bind_Ok; apply IH; done || lia.
Qed.

Lemma helper_raise fuel :
  ∀ n m, len prices < n → (Z.to_nat n < fuel)%nat → memo_ok m →
    helper fuel prices n m = Raise IndexError.
Proof.
  induction fuel as [|fuel IH]; intros n m Hn Hfuel Hm; [lia|].
  assert (0 ≤ len prices) by (unfold len; lia).
  cbn [helper]. rewrite bool_decide_eq_false_2 by lia.
  destruct (m !! n) as [[p c]|] eqn:Hlk.
  { destruct (proj1 Hm _ _ _ Hlk) as (Hk & _). lia. }
  destruct (decide (n = len prices + 1)) as [Heq|Hne].
  - rewrite (helper_loop_raise _ n Heq) with (d := Z.to_nat (len prices)) (t := 0);
      [done| |lia|lia|done].
    intros k m0 Hk Hm0. apply helper_ok; [lia|lia|done].
  - rewrite range_cons by lia. cbn [for_each]. unfold helper_body.
    rewrite getitem_lookup by lia. destruct (prices !! _); [|done].
    rewrite bind_Ok, IH by (done || lia). done.
Qed.

Lemma rod_cutting_memo_short length :
  len prices < length → rod_cutting_memo length prices = Raise IndexError.
Proof.
  intros Hl. unfold rod_cutting_memo.
  rewrite helper_raise; [done|done|unfold helper_fuel; lia|apply memo_ok_empty].
Qed.

Lemma table_outer_raise dp fc j :
  j = len prices + 1 → table_outer prices j (dp, fc) = Raise IndexError.
Proof.
  intros ->. assert (0 ≤ len prices) by (unfold len; lia).
  unfold table_outer. rewrite range_down_cons by lia. cbn [for_each].
  unfold table_inner. rewrite (getitem_out prices) by lia. done.
Qed.

Lemma build_tables_short length :
  len prices < length → build_tables length prices = Raise IndexError.
Proof.
  intros Hl. assert (0 ≤ len prices) by (unfold len; lia).
  destruct (build_tables_upto length (len prices)) as (dp & fc & Hrun & _); [lia|lia|].
  unfold build_tables.
  destruct (setitem (repeat_list (Int 0) (length + 1)) 0 (Int 0)) as [dp0| |];
    [|done..].
  rewrite bind_Ok in Hrun. rewrite bind_Ok.
  rewrite (range_app 1 (len prices + 1) (length + 1)) by lia.
  rewrite for_each_app, Hrun, bind_Ok.
  rewrite range_cons by lia. cbn [for_each].
  by rewrite table_outer_raise.
Qed.

Lemma rod_cutting_table_short length :
  len prices < length → rod_cutting_table length prices = Raise IndexError.
Proof.
  intros Hl. unfold rod_cutting_table. by rewrite build_tables_short.
Qed.

(** *** Negative lengths *)

Lemma rod_cutting_memo_negative length :
  length < 0 →
  rod_cutting_memo length prices =
    Ok {| max_profit := NegInf; cuts := []; number_of_cuts := 0 |}.
Proof.
  intros Hl. unfold rod_cutting_memo, helper_fuel. cbn [helper].
  rewrite bool_decide_eq_false_2 by lia.
  rewrite lookup_empty, range_nil by lia. reflexivity.
Qed.

Lemma rod_cutting_table_negative length :
  length < 0 → rod_cutting_table length prices = Raise IndexError.
Proof.
  intros Hl. unfold rod_cutting_table, build_tables, repeat_list.
  replace (Z.to_nat (length + 1)) with O by lia. cbn [replicate].
  by rewrite setitem_empty.
Qed.

(** *** Shape of the results *)

Lemma count_cuts_max c : count_cuts c = Z.max 0 (len c - 1).
Proof. destruct c; unfold count_cuts, len; simpl; lia. Qed.

Lemma canon_well_formed n c :
  canon n c →
  well_formed_result n
    {| max_profit := Int (profit_of c); cuts := c; number_of_cuts := count_cuts c |}.
Proof.
  intros Hc. pose proof (canon_valid _ _ Hc) as [Hpos Hsum].
  split; [done|]. split; [|split; [done|apply count_cuts_max]].
  cbn [cuts]. split.
  - intros ->. by inversion Hc.
  - intros ->. by apply valid_cuts_zero.
Qed.

Lemma canon_well_formed_reverse n c :
  canon n c →
  well_formed_result n
    {| max_profit := Int (profit_of c); cuts := reverse c;
       number_of_cuts := count_cuts (reverse c) |}.
Proof.
  intros Hc. destruct (canon_well_formed _ _ Hc) as (Hsum & Hnil & Hpos & _).
  cbn [cuts] in *. split; [|split; [|split]]; cbn [cuts number_of_cuts].
  - by rewrite sum_reverse.
  - rewrite <- Hnil. split; intros Hr.
    + apply (f_equal reverse) in Hr. by rewrite reverse_involutive in Hr.
    + by rewrite Hr.
  - by apply Forall_reverse.
  - apply count_cuts_max.
Qed.

(** Every segment of a cutting is at most as long as the rod. *)
Lemma valid_cuts_bounded c n : valid_cuts c n → Forall (λ i, 1 ≤ i ≤ n) c.
Proof.
  revert n. induction c as [|i c IH]; intros n; [constructor|].
  rewrite valid_cuts_cons. intros [Hi Hc].
  pose proof (valid_cuts_nonneg _ _ Hc). constructor; [lia|].
  eapply Forall_impl; [by apply IH|]. simpl. intros; lia.
Qed.

End Solvers.

(** *** Extending the price table *)

Lemma price_of_app prices p i :
  1 ≤ i ≤ len prices → price_of (prices ++ [p]) i = price_of prices i.
Proof.
  intros Hi. unfold price_of, len in *. by rewrite lookup_app_l by lia.
Qed.

Lemma profit_of_app prices p c n :
  valid_cuts c n → n ≤ len prices →
  profit_of (prices ++ [p]) c = profit_of prices c.
Proof.
  intros Hc Hn. apply valid_cuts_bounded in Hc.
  induction Hc as [|i c Hi _ IH]; [done|].
  rewrite !profit_of_cons, IH. f_equal. apply price_of_app. lia.
Qed.

Lemma price_of_nonneg prices i :
  Forall (λ p, 0 ≤ p) prices → 0 ≤ price_of prices i.
Proof.
  intros Hall. unfold price_of.
  destruct (prices !! Z.to_nat (i - 1)) as [x|] eqn:Hx; [|done].
  simpl. by apply (Forall_lookup_1 _ _ _ _ Hall Hx).
Qed.

(** One more unit of rod, sold as a segment of length 1 next to the
    canonical cutting of the shorter rod, is a cutting of the longer
    rod under the extended table. *)
Lemma canon_extend prices p length c c' :
  valid_input length prices → 0 ≤ p →
  canon prices length c → canon (prices ++ [p]) (length + 1) c' →
  profit_of prices c ≤ profit_of (prices ++ [p]) c'.
Proof.
  intros (Hl & Hlen & Hpos) Hp Hc Hc'.
  destruct (canon_optimal _ _ _ Hc') as [_ Hopt].
  specialize (Hopt (1 :: c)). rewrite profit_of_cons in Hopt.
  rewrite (profit_of_app prices p c length) in Hopt
    by (done || by apply (canon_valid prices)).
  assert (0 ≤ price_of (prices ++ [p]) 1).
  { apply price_of_nonneg, Forall_app. split; [done|]. by constructor. }
  etrans; [|apply Hopt].
  - lia.
  - apply valid_cuts_cons. split; [lia|].
    replace (length + 1 - 1) with length by lia. by eapply canon_valid.
Qed.

Lemma valid_input_extend length prices p :
  valid_input length prices → 0 ≤ length + 1 ≤ len (prices ++ [p]).
Proof.
  intros (Hl & Hlen & _). unfold len in *. rewrite length_app. simpl. lia.
Qed.

Lemma invalid_input_cases length (prices : list Z) :
  len prices < length ∨ length < 0 ∨ 0 ≤ length ≤ len prices.
Proof. unfold len. lia. Qed.

(** *** The claims about the two solvers *)

(** C1. For every valid input (length >= 0, prices with at least
    [length] non-negative entries) [rod_cutting_memo] and
    [rod_cutting_table] both return, and with the same [max_profit]. *)
Theorem memo_table_same_profit length prices :
  valid_input length prices →
  ∃ r1 r2,
    rod_cutting_memo length prices = Ok r1 ∧
    rod_cutting_table length prices = Ok r2 ∧
    max_profit r1 = max_profit r2.
Proof.
  intros (Hl & Hlen & _).
  destruct (rod_cutting_memo_ok prices length) as (c1 & Hc1 & Hmemo); [done|].
  destruct (rod_cutting_table_ok prices length) as (c2 & Hc2 & Htable); [done|].
  rewrite (canon_unique _ _ _ _ Hc2 Hc1) in Htable.
  eexists _, _. by split; [exact Hmemo|split; [exact Htable|]].
Qed.

Lemma valid_input_5 : valid_input 5 [2; 5; 7; 8; 10].
Proof.
  unfold valid_input, len. simpl.
  split; [lia|]. split; [lia|]. repeat constructor; lia.
Defined.

Lemma memo_table_same_profit_witness :
  valid_input 5 [2; 5; 7; 8; 10] ∧
  ∃ r1 r2,
    rod_cutting_memo 5 [2; 5; 7; 8; 10] = Ok r1 ∧
    rod_cutting_table 5 [2; 5; 7; 8; 10] = Ok r2 ∧
    max_profit r1 = max_profit r2.
Proof.
  split; [exact valid_input_5|].
  exact (memo_table_same_profit 5 [2; 5; 7; 8; 10] valid_input_5).
Defined.

(** The common [max_profit] is the profit of a most profitable cutting. *)
Lemma max_profit_optimal length prices :
  valid_input length prices →
  ∃ r c, rod_cutting_memo length prices = Ok r ∧
         optimal prices c length ∧ max_profit r = Int (profit_of prices c).
Proof.
  intros (Hl & Hlen & _).
  destruct (rod_cutting_memo_ok prices length) as (c & Hc & Hmemo); [done|].
  eexists _, c. split; [exact Hmemo|]. split; [by apply canon_optimal|done].
Qed.

(** C2, as the code has it.  Neither solver validates its input and
    there is no typed error.  A price table shorter than the rod makes
    both solvers fail with the built-in [IndexError] of the price
    lookup, in the middle of the computation, and no result is
    returned (so for length 4 and prices [1, 2]).  A negative length
    makes [rod_cutting_table] fail with [IndexError] at [dp[0] = 0],
    while [rod_cutting_memo] returns a profit of minus infinity with no
    cuts.  Negative prices are never rejected: whenever the table
    covers a non-negative length, both solvers return a result. *)
Theorem invalid_input_behaviour length prices :
  (len prices < length →
     rod_cutting_memo length prices = Raise IndexError ∧
     rod_cutting_table length prices = Raise IndexError) ∧
  (length < 0 →
     rod_cutting_memo length prices =
       Ok {| max_profit := NegInf; cuts := []; number_of_cuts := 0 |} ∧
     rod_cutting_table length prices = Raise IndexError) ∧
  (0 ≤ length ≤ len prices →
     ∃ r1 r2, rod_cutting_memo length prices = Ok r1 ∧
              rod_cutting_table length prices = Ok r2).
Proof.
  split; [|split].
  - intros Hshort. split.
    + by apply rod_cutting_memo_short.
    + by apply rod_cutting_table_short.
  - intros Hneg. split.
    + by apply rod_cutting_memo_negative.
    + by apply rod_cutting_table_negative.
  - intros Hl.
    destruct (rod_cutting_memo_ok prices length Hl) as (c1 & _ & Hmemo).
    destruct (rod_cutting_table_ok prices length Hl) as (c2 & _ & Htable).
    eauto.
Qed.

Lemma invalid_input_behaviour_witness :
  len [1; 2] < 4 ∧
  rod_cutting_memo 4 [1; 2] = Raise IndexError ∧
  rod_cutting_table 4 [1; 2] = Raise IndexError.
Proof.
  assert (Hshort : len [1; 2] < 4) by (unfold len; simpl; lia).
  split; [exact Hshort|].
  exact (proj1 (invalid_input_behaviour 4 [1; 2]) Hshort).
Defined.

(** C2 as stated fails: a negative length is not rejected by
    [rod_cutting_memo], and a negative price is rejected by neither
    solver. *)
Lemma invalid_input_not_rejected :
  ¬ (-1 < 0 → ∃ e, rod_cutting_memo (-1) [1; 2] = Raise e) ∧
  ¬ (Exists (λ p, p < 0) [-5] →
     (∃ e, rod_cutting_memo 1 [-5] = Raise e) ∧
     (∃ e, rod_cutting_table 1 [-5] = Raise e)).
Proof.
  split.
  - intros Hclaim. destruct Hclaim as [e He]; [lia|]. vm_compute in He. discriminate.
  - intros Hclaim. destruct Hclaim as [[e He] _].
    + constructor. lia.
    + vm_compute in He. discriminate.
Qed.

(** C3, as the code has it.  For length 4 and prices [3, 5, 6, 7] both
    solvers return [max_profit] 12, reached by four segments of length
    1: [cuts] is [1, 1, 1, 1] and [number_of_cuts] is 3. *)
Theorem scenario_3_result :
  rod_cutting_memo 4 [3; 5; 6; 7] =
    Ok {| max_profit := Int 12; cuts := [1; 1; 1; 1]; number_of_cuts := 3 |} ∧
  rod_cutting_table 4 [3; 5; 6; 7] =
    Ok {| max_profit := Int 12; cuts := [1; 1; 1; 1]; number_of_cuts := 3 |}.
Proof. split; vm_compute; reflexivity. Qed.

(** C3 as stated fails: neither solver returns the cuts [2, 2] (which
    would sell for 10, not 12). *)
Lemma scenario_3_not_2_2 :
  ¬ (∃ r1 r2,
       rod_cutting_memo 4 [3; 5; 6; 7] = Ok r1 ∧
       rod_cutting_table 4 [3; 5; 6; 7] = Ok r2 ∧
       max_profit r1 = Int 12 ∧ max_profit r2 = Int 12 ∧
       cuts r1 = [2; 2] ∧ cuts r2 = [2; 2]).
Proof.
  intros (r1 & r2 & H1 & _ & _ & _ & Hc & _).
  vm_compute in H1. injection H1 as <-. simpl in Hc. discriminate.
Qed.

(** C4, as the code has it.  For every valid input the [while] loop of
    [rod_cutting_table], appending [first_cut[rem]] and subtracting it
    from [rem] until 0, builds exactly the cut list that
    [rod_cutting_memo] returns; [rod_cutting_table] then reverses it,
    so the cuts it returns are those of [rod_cutting_memo] in the
    opposite order. *)
Theorem table_cuts_reverse_memo length prices :
  valid_input length prices →
  ∃ r1 r2 dp first_cut,
    rod_cutting_memo length prices = Ok r1 ∧
    rod_cutting_table length prices = Ok r2 ∧
    build_tables length prices = Ok (dp, first_cut) ∧
    reconstruct (Z.to_nat length) first_cut length [] = Ok (cuts r1) ∧
    cuts r2 = reverse (cuts r1).
Proof.
  intros (Hl & Hlen & _).
  destruct (rod_cutting_memo_ok prices length) as (c1 & Hc1 & Hmemo); [done|].
  destruct (rod_cutting_table_ok prices length) as (c2 & Hc2 & Htable); [done|].
  destruct (build_tables_ok prices length) as (dp & fc & Hbuild & Hok); [done|].
  rewrite (canon_unique _ _ _ _ Hc2 Hc1) in Htable.
  eexists _, _, dp, fc.
  split; [exact Hmemo|]. split; [exact Htable|]. split; [exact Hbuild|].
  split; [|done]. cbn [cuts].
  by rewrite (reconstruct_ok _ _ _ _ _ Hok length c1 Hc1) by lia.
Qed.

Lemma valid_input_3 : valid_input 3 [1; 3; 4].
Proof.
  unfold valid_input, len. simpl.
  split; [lia|]. split; [lia|]. repeat constructor; lia.
Defined.

Lemma table_cuts_reverse_memo_witness :
  valid_input 3 [1; 3; 4] ∧
  ∃ r1 r2 dp first_cut,
    rod_cutting_memo 3 [1; 3; 4] = Ok r1 ∧
    rod_cutting_table 3 [1; 3; 4] = Ok r2 ∧
    build_tables 3 [1; 3; 4] = Ok (dp, first_cut) ∧
    reconstruct (Z.to_nat 3) first_cut 3 [] = Ok (cuts r1) ∧
    cuts r2 = reverse (cuts r1).
Proof.
  split; [exact valid_input_3|].
  exact (table_cuts_reverse_memo 3 [1; 3; 4] valid_input_3).
Defined.

(** C4 as stated fails: for length 3 and prices [1, 3, 4], a valid
    input, [rod_cutting_memo] returns the cuts [1, 2] and
    [rod_cutting_table] the cuts [2, 1]; the segment order differs. *)
Lemma table_cuts_order_differs :
  valid_input 3 [1; 3; 4] ∧
  ¬ (∃ r1 r2,
       rod_cutting_memo 3 [1; 3; 4] = Ok r1 ∧
       rod_cutting_table 3 [1; 3; 4] = Ok r2 ∧
       cuts r2 = cuts r1).
Proof.
  split; [exact valid_input_3|].
  intros (r1 & r2 & H1 & H2 & Heq).
  vm_compute in H1, H2. injection H1 as <-. injection H2 as <-.
  simpl in Heq. discriminate.
Qed.

(** C5. For every valid input and every sub-length [j] from 1 to
    [length], the first cut recorded for [j] by [rod_cutting_memo]
    (head of the cut list in [memo[j]], kept by the forward scan with
    strict [>]) and the one recorded by [rod_cutting_table]
    ([first_cut[j]], left by the descending scan with [>=]) are both
    the smallest segment length that starts a most profitable cutting
    of [j]; the profit stored with it is that maximal profit. *)
Theorem smallest_first_cut_recorded length prices :
  valid_input length prices →
  ∃ memo dp first_cut,
    memo_after length prices = Ok memo ∧
    build_tables length prices = Ok (dp, first_cut) ∧
    ∀ j, 1 ≤ j ≤ length →
      ∃ i rest,
        smallest_best_first_cut prices j i ∧
        optimal prices (i :: rest) j ∧
        memo !! j = Some (Int (profit_of prices (i :: rest)), i :: rest) ∧
        first_cut !! Z.to_nat j = Some i ∧
        dp !! Z.to_nat j = Some (Int (profit_of prices (i :: rest))).
Proof.
  intros (Hl & Hlen & _).
  destruct (memo_after_ok prices length) as (m & Hmemo & [Hval Hclosed] & Hin); [done|].
  destruct (build_tables_ok prices length) as (dp & fc & Hbuild & _ & _ & Htab); [done|].
  exists m, dp, fc. split; [done|]. split; [done|].
  intros j Hj.
  destruct (Hclosed length j) as [[p c] Hmj]; [apply Hin; lia|done|].
  destruct (Hval _ _ _ Hmj) as (_ & Hc & ->).
  destruct (Htab j) as (c' & Hc' & Hdp & Hfc); [lia|].
  destruct Hfc as (i & rest & -> & Hfc); [lia|].
  rewrite (canon_unique _ _ _ _ Hc Hc') in Hmj.
  exists i, rest. split; [by eapply canon_smallest_first|].
  split; [by apply canon_optimal|]. done.
Qed.

Lemma smallest_first_cut_recorded_witness :
  valid_input 5 [2; 5; 7; 8; 10] ∧
  ∃ memo dp first_cut,
    memo_after 5 [2; 5; 7; 8; 10] = Ok memo ∧
    build_tables 5 [2; 5; 7; 8; 10] = Ok (dp, first_cut) ∧
    ∀ j, 1 ≤ j ≤ 5 →
      ∃ i rest,
        smallest_best_first_cut [2; 5; 7; 8; 10] j i ∧
        optimal [2; 5; 7; 8; 10] (i :: rest) j ∧
        memo !! j = Some (Int (profit_of [2; 5; 7; 8; 10] (i :: rest)), i :: rest) ∧
        first_cut !! Z.to_nat j = Some i ∧
        dp !! Z.to_nat j = Some (Int (profit_of [2; 5; 7; 8; 10] (i :: rest))).
Proof.
  split; [exact valid_input_5|].
  exact (smallest_first_cut_recorded 5 [2; 5; 7; 8; 10] valid_input_5).
Defined.

(** C6. For every valid input both solvers return a result in which
    [sum(cuts) == length] when [length > 0], [cuts] is empty exactly
    when [length == 0], every element of [cuts] is a positive integer,
    and [number_of_cuts == max(0, len(cuts) - 1)]. *)
Theorem results_well_formed length prices :
  valid_input length prices →
  ∃ r1 r2,
    rod_cutting_memo length prices = Ok r1 ∧
    rod_cutting_table length prices = Ok r2 ∧
    well_formed_result length r1 ∧ well_formed_result length r2.
Proof.
  intros (Hl & Hlen & _).
  destruct (rod_cutting_memo_ok prices length) as (c1 & Hc1 & Hmemo); [done|].
  destruct (rod_cutting_table_ok prices length) as (c2 & Hc2 & Htable); [done|].
  eexists _, _. split; [exact Hmemo|]. split; [exact Htable|]. split.
  - by eapply canon_well_formed.
  - by eapply canon_well_formed_reverse.
Qed.

Lemma results_well_formed_witness :
  valid_input 3 [1; 3; 4] ∧
  ∃ r1 r2,
    rod_cutting_memo 3 [1; 3; 4] = Ok r1 ∧
    rod_cutting_table 3 [1; 3; 4] = Ok r2 ∧
    well_formed_result 3 r1 ∧ well_formed_result 3 r2.
Proof.
  split; [exact valid_input_3|].
  exact (results_well_formed 3 [1; 3; 4] valid_input_3).
Defined.

(** C7. Monotonicity: for every valid input and every non-negative
    price [p], solving for [length + 1] with the price table extended
    by [p] gives, with either solver, a [max_profit] greater than or
    equal to the one for the original input. *)
Theorem longer_rod_no_less_profit length prices p :
  valid_input length prices → 0 ≤ p →
  ∃ m m' t t',
    rod_cutting_memo length prices = Ok m ∧
    rod_cutting_memo (length + 1) (prices ++ [p]) = Ok m' ∧
    rod_cutting_table length prices = Ok t ∧
    rod_cutting_table (length + 1) (prices ++ [p]) = Ok t' ∧
    num_ge (max_profit m') (max_profit m) = true ∧
    num_ge (max_profit t') (max_profit t) = true.
Proof.
  intros Hvalid Hp. pose proof (valid_input_extend _ _ p Hvalid) as Hext.
  pose proof Hvalid as (Hl & Hlen & _).
  destruct (rod_cutting_memo_ok prices length) as (c1 & Hc1 & Hmemo); [done|].
  destruct (rod_cutting_table_ok prices length) as (c2 & Hc2 & Htable); [done|].
  destruct (rod_cutting_memo_ok _ _ Hext) as (c1' & Hc1' & Hmemo').
  destruct (rod_cutting_table_ok _ _ Hext) as (c2' & Hc2' & Htable').
  eexists _, _, _, _.
  split; [exact Hmemo|]. split; [exact Hmemo'|].
  split; [exact Htable|]. split; [exact Htable'|].
  cbn [max_profit num_ge]. split; apply bool_decide_eq_true_2.
  - by eapply canon_extend.
  - by eapply canon_extend.
Qed.

Lemma longer_rod_no_less_profit_witness :
  valid_input 3 [1; 3; 4] ∧ 0 ≤ 9 ∧
  ∃ m m' t t',
    rod_cutting_memo 3 [1; 3; 4] = Ok m ∧
    rod_cutting_memo (3 + 1) ([1; 3; 4] ++ [9]) = Ok m' ∧
    rod_cutting_table 3 [1; 3; 4] = Ok t ∧
    rod_cutting_table (3 + 1) ([1; 3; 4] ++ [9]) = Ok t' ∧
    num_ge (max_profit m') (max_profit m) = true ∧
    num_ge (max_profit t') (max_profit t) = true.
Proof.
  assert (Hp : 0 ≤ 9) by lia.
  split; [exact valid_input_3|]. split; [exact Hp|].
  exact (longer_rod_no_less_profit 3 [1; 3; 4] 9 valid_input_3 Hp).
Defined.

(** Whatever the input, the fuel given to the recursion of [helper]
    and to the [while] loop of the reconstruction is enough. *)
Lemma solvers_terminate length prices :
  rod_cutting_memo length prices ≠ OutOfFuel ∧
  rod_cutting_table length prices ≠ OutOfFuel.
Proof.
  destruct (invalid_input_cases length prices) as [Hshort|[Hneg|Hl]].
  - by rewrite rod_cutting_memo_short, rod_cutting_table_short.
  - by rewrite rod_cutting_memo_negative, rod_cutting_table_negative.
  - destruct (rod_cutting_memo_ok prices length Hl) as (c1 & _ & ->).
    destruct (rod_cutting_table_ok prices length Hl) as (c2 & _ & ->). done.
Qed.

(** The first two scenarios of [run_tests]. *)
Example scenario_1_result :
  rod_cutting_memo 5 [2; 5; 7; 8; 10] =
    Ok {| max_profit := Int 12; cuts := [1; 2; 2]; number_of_cuts := 2 |} ∧
  rod_cutting_table 5 [2; 5; 7; 8; 10] =
    Ok {| max_profit := Int 12; cuts := [2; 2; 1]; number_of_cuts := 2 |}.
Proof. split; vm_compute; reflexivity. Qed.

Example scenario_2_result :
  rod_cutting_memo 3 [1; 3; 8] =
    Ok {| max_profit := Int 8; cuts := [3]; number_of_cuts := 0 |} ∧
  rod_cutting_table 3 [1; 3; 8] =
    Ok {| max_profit := Int 8; cuts := [3]; number_of_cuts := 0 |}.
Proof. split; vm_compute; reflexivity. Qed.

(** C8. Degenerate case: for [length == 0] and any price table, both
    solvers return [max_profit == 0], [cuts == []] and
    [number_of_cuts == 0]. *)
Theorem zero_length_result prices :
  rod_cutting_memo 0 prices =
    Ok {| max_profit := Int 0; cuts := []; number_of_cuts := 0 |} ∧
  rod_cutting_table 0 prices =
    Ok {| max_profit := Int 0; cuts := []; number_of_cuts := 0 |}.
Proof. split; reflexivity. Qed.

End RodCutting.

(** ** The print queue *)

Module PrintQueue.
Import Py PyFacts Task1.

Section Queue.
Context {V : Type} `{Volume V}.

(** *** The sort is the stable sort by priority *)

Lemma insert_job_perm (job : PrintJob V) jobs :
  insert_job job jobs ≡ₚ job :: jobs.
Proof.
  induction jobs as [|x jobs IH]; simpl; [done|].
  case_bool_decide; [done|]. rewrite IH. apply Permutation_swap.
Qed.

Lemma sort_by_priority_perm (jobs : list (PrintJob V)) :
  sort_by_priority jobs ≡ₚ jobs.
Proof.
  induction jobs as [|job jobs IH]; simpl; [done|].
  by rewrite insert_job_perm, IH.
Qed.

Lemma insert_job_sorted (job : PrintJob V) jobs :
  StronglySorted (λ a b, priority a ≤ priority b) jobs →
  StronglySorted (λ a b, priority a ≤ priority b) (insert_job job jobs).
Proof.
  induction 1 as [|x jobs Hsorted IH Hx]; simpl.
  - repeat constructor.
  - case_bool_decide as Hle.
    + constructor; [by constructor|]. constructor; [done|].
      eapply Forall_impl; [exact Hx|]. simpl. intros; lia.
    + constructor; [done|]. rewrite insert_job_perm.
      constructor; [lia|done].
Qed.

Lemma sort_by_priority_sorted (jobs : list (PrintJob V)) :
  StronglySorted (λ a b, priority a ≤ priority b) (sort_by_priority jobs).
Proof.
  induction jobs as [|job jobs IH]; simpl; [constructor|].
  by apply insert_job_sorted.
Qed.

(** Jobs of one priority keep the order they were submitted in. *)
Lemma insert_job_stable p (job : PrintJob V) jobs :
  filter (λ j, priority j = p) (insert_job job jobs) =
  filter (λ j, priority j = p) (job :: jobs).
Proof.
  induction jobs as [|x jobs IH]; simpl; [done|].
  case_bool_decide as Hle; [done|].
  rewrite filter_cons, IH, !filter_cons.
  repeat case_decide; try done; lia.
Qed.

Lemma sort_by_priority_stable p (jobs : list (PrintJob V)) :
  filter (λ j, priority j = p) (sort_by_priority jobs) =
  filter (λ j, priority j = p) jobs.
Proof.
  induction jobs as [|job jobs IH]; simpl; [done|].
  by rewrite insert_job_stable, !filter_cons, IH.
Qed.

(** *** The order of printing *)

Lemma finish_scheduled (st : loop_state V) :
  print_order (finish st) = scheduled st.
Proof.
  destruct st as [[[[o t] g] v] gt]. destruct g; simpl; [|done].
  by rewrite app_nil_r.
Qed.

Lemma step_scheduled printer (st : loop_state V) job :
  scheduled (step printer st job) = scheduled st ++ [id job].
Proof.
  destruct st as [[[[o t] g] v] gt]. unfold step.
  destruct (fits _ _ _); simpl.
  - by rewrite fmap_app, app_assoc.
  - destruct g; simpl; [|done]. by rewrite app_nil_r.
Qed.

Lemma run_scheduled printer jobs (st : loop_state V) :
  scheduled (fold_left (step printer) jobs st) = scheduled st ++ (id <$> jobs).
Proof.
  revert st. induction jobs as [|job jobs IH]; intros st; simpl.
  - by rewrite app_nil_r.
  - by rewrite IH, step_scheduled, <- app_assoc.
Qed.

(** The jobs are printed in the order of the sorted queue. *)
Lemma print_order_sorted (print_jobs : list (PrintJob V)) constraints :
  print_order (optimize_printing print_jobs constraints) =
  id <$> sort_by_priority print_jobs.
Proof.
  unfold optimize_printing. by rewrite finish_scheduled, run_scheduled.
Qed.

(** *** Jobs that do not fit *)

Lemma finish_elapsed (st : loop_state V) : total_time (finish st) = elapsed st.
Proof. destruct st as [[[[o t] g] v] gt]. by destruct g. Qed.

Lemma step_unfit printer (st : loop_state V) job :
  fits printer st job = false →
  step printer st job =
    (scheduled st, elapsed st, [job], volume job, print_time job).
Proof.
  destruct st as [[[[o t] g] v] gt]. intros Hfits. unfold step.
  rewrite Hfits. destruct g; simpl; [|done]. by rewrite app_nil_r.
Qed.

Lemma fits_no_room printer (st : loop_state V) job :
  max_items printer ≤ 0 → fits printer st job = false.
Proof.
  destruct st as [[[[o t] g] v] gt]. intros Hmax. unfold fits, len.
  rewrite bool_decide_eq_false_2; [done|lia].
Qed.

Lemma fits_violates_alone printer (job : PrintJob V) :
  violates_alone printer job → fits printer initial job = false.
Proof.
  intros [Hmax|Hvol].
  - by apply fits_no_room.
  - unfold fits, initial. rewrite Hvol. apply andb_false_r.
Qed.

Lemma run_no_room printer jobs (st : loop_state V) :
  max_items printer ≤ 0 →
  elapsed (fold_left (step printer) jobs st) =
    elapsed st + sum (print_time <$> jobs).
Proof.
  intros Hmax. revert st. induction jobs as [|job jobs IH]; intros st.
  - unfold sum. simpl. lia.
  - cbn [fold_left]. rewrite IH, step_unfit by (by apply fits_no_room).
    rewrite fmap_cons, sum_cons.
    change (elapsed (scheduled st, elapsed st, [job], volume job, print_time job))
      with (elapsed st + print_time job). lia.
Qed.

Lemma sum_perm (l1 l2 : list Z) : l1 ≡ₚ l2 → sum l1 = sum l2.
Proof. unfold sum. induction 1; simpl; lia. Qed.

Lemma plan_eta (r : @PrintPlan) :
  r = {| print_order := print_order r; total_time := total_time r |}.
Proof. by destruct r. Qed.

(** With no room for any item, every job is printed on its own. *)
Lemma optimize_printing_no_room (print_jobs : list (PrintJob V)) constraints :
  max_items constraints ≤ 0 →
  optimize_printing print_jobs constraints =
    {| print_order := id <$> sort_by_priority print_jobs;
       total_time := sum (print_time <$> print_jobs) |}.
Proof.
  intros Hmax. rewrite (plan_eta (optimize_printing _ _)).
  rewrite print_order_sorted. f_equal.
  unfold optimize_printing. rewrite finish_elapsed, run_no_room by done.
  cbn [elapsed initial]. rewrite Z.add_0_l.
  apply sum_perm. by rewrite sort_by_priority_perm.
Qed.

(** A job that breaks the constraints by itself is printed all the same. *)
Lemma optimize_printing_alone (job : PrintJob V) constraints :
  violates_alone constraints job →
  optimize_printing [job] constraints =
    {| print_order := [id job]; total_time := print_time job |}.
Proof.
  intros Hv. unfold optimize_printing. cbn [sort_by_priority foldr insert_job fold_left].
  by rewrite (step_unfit _ _ _ (fits_violates_alone _ _ Hv)).
Qed.

End Queue.

(** With integer volumes: when every job is larger than a non-negative
    [max_volume], no job ever joins the group before it. *)
Lemma run_oversize (printer : PrinterConstraints Z) jobs o t g v gt :
  0 ≤ max_volume printer → 0 ≤ v →
  Forall (λ job, max_volume printer < volume job) jobs →
  elapsed (fold_left (step printer) jobs (o, t, g, v, gt)) =
    elapsed (o, t, g, v, gt) + sum (print_time <$> jobs).
Proof.
  intros Hmax Hv Hall. revert o t g v gt Hv.
  induction Hall as [|job jobs Hjob _ IH]; intros o t g v gt Hv.
  - unfold sum. simpl. lia.
  - cbn [fold_left]. rewrite step_unfit.
    + rewrite IH by lia. rewrite fmap_cons, sum_cons.
      change (elapsed (scheduled (o, t, g, v, gt), elapsed (o, t, g, v, gt),
                       [job], volume job, print_time job))
        with (elapsed (o, t, g, v, gt) + print_time job). lia.
    + unfold fits. cbn [vle vadd int_volume].
      replace (v + volume job <=? max_volume printer) with false; [apply andb_false_r|].
      symmetry. apply Z.leb_gt. lia.
Qed.

Lemma optimize_printing_oversize (print_jobs : list (PrintJob Z)) constraints :
  0 ≤ max_volume constraints →
  Forall (λ job, max_volume constraints < volume job) print_jobs →
  optimize_printing print_jobs constraints =
    {| print_order := id <$> sort_by_priority print_jobs;
       total_time := sum (print_time <$> print_jobs) |}.
Proof.
  intros Hmax Hall. rewrite (plan_eta (optimize_printing _ _)).
  rewrite print_order_sorted. f_equal.
  unfold optimize_printing, initial. rewrite finish_elapsed, run_oversize; [|done|done|].
  - cbn [elapsed]. rewrite Z.add_0_l.
    apply sum_perm. by rewrite sort_by_priority_perm.
  - by rewrite sort_by_priority_perm.
Qed.

(** With unique job ids, every id is printed exactly once. *)
Lemma print_order_NoDup {V : Type} `{Volume V}
    (print_jobs : list (PrintJob V)) (constraints : PrinterConstraints V) :
  NoDup (id <$> print_jobs) →
  NoDup (print_order (optimize_printing print_jobs constraints)).
Proof.
  intros Hids. by rewrite print_order_sorted, sort_by_priority_perm.
Qed.

(** C9. For every list of print jobs and any constraints, the
    [print_order] returned by [optimize_printing] is a permutation of
    the ids of the input jobs: each id occurs in it as often as in the
    input (once, for unique ids) and no job is dropped, whatever
    [max_volume] and [max_items] are. *)
Theorem print_order_permutation {V : Type} `{Volume V}
    (print_jobs : list (PrintJob V)) (constraints : PrinterConstraints V) :
  print_order (optimize_printing print_jobs constraints) ≡ₚ id <$> print_jobs ∧
  length (print_order (optimize_printing print_jobs constraints)) = length print_jobs.
Proof.
  rewrite print_order_sorted. split.
  - by rewrite sort_by_priority_perm.
  - by rewrite length_fmap, sort_by_priority_perm.
Qed.

(** C10. [optimize_printing] never rejects a job that breaks the
    constraints on its own.  A job that does not fit the current group
    starts a new group holding just that job, with that job's volume
    and print time, whatever they are.  So a job whose volume alone
    exceeds [max_volume], or any job when [max_items <= 0], is
    printed as a group of its own, and the print time of that group
    is added to [total_time]. *)
Theorem unfit_job_starts_own_group :
  (∀ V (HV : Volume V) (printer : PrinterConstraints V) st job,
     fits printer st job = false →
     step printer st job =
       (scheduled st, elapsed st, [job], volume job, print_time job) ∧
     finish (step printer st job) =
       {| print_order := scheduled st ++ [id job];
          total_time := elapsed st + print_time job |}) ∧
  (∀ V (HV : Volume V) (constraints : PrinterConstraints V) job,
     violates_alone constraints job →
     optimize_printing [job] constraints =
       {| print_order := [id job]; total_time := print_time job |}) ∧
  (∀ V (HV : Volume V) (constraints : PrinterConstraints V) print_jobs,
     max_items constraints ≤ 0 →
     optimize_printing print_jobs constraints =
       {| print_order := id <$> sort_by_priority print_jobs;
          total_time := sum (print_time <$> print_jobs) |}) ∧
  (∀ (constraints : PrinterConstraints Z) print_jobs,
     0 ≤ max_volume constraints →
     Forall (λ job, max_volume constraints < volume job) print_jobs →
     optimize_printing print_jobs constraints =
       {| print_order := id <$> sort_by_priority print_jobs;
          total_time := sum (print_time <$> print_jobs) |}).
Proof.
  split; [|split; [|split]].
  - intros V HV printer st job Hfits. rewrite (step_unfit _ _ _ Hfits).
    split; reflexivity.
  - intros V HV constraints job. apply optimize_printing_alone.
  - intros V HV constraints print_jobs. apply optimize_printing_no_room.
  - intros constraints print_jobs. apply optimize_printing_oversize.
Qed.

(** An oversize job (350 against a limit of 300) scheduled alone. *)
Lemma unfit_job_starts_own_group_witness :
  violates_alone {| max_volume := 300; max_items := 2 |}
    {| id := "M1"; volume := 350; priority := 1; print_time := 180 |} ∧
  optimize_printing
    [{| id := "M1"; volume := 350; priority := 1; print_time := 180 |}]
    {| max_volume := 300; max_items := 2 |} =
    {| print_order := ["M1"]; total_time := 180 |}.
Proof.
  assert (Hv : violates_alone {| max_volume := 300; max_items := 2 |}
                 {| id := "M1"; volume := 350; priority := 1; print_time := 180 |})
    by (right; reflexivity).
  split; [exact Hv|].
  exact (proj1 (proj2 unfit_job_starts_own_group) Z _ _ _ Hv).
Defined.

(** The third test of the module, with the first job made oversize:
    it is printed alone and its 180 minutes are counted. *)
Example oversize_job_scheduled :
  optimize_printing
    [{| id := "M1"; volume := 350; priority := 1; print_time := 180 |};
     {| id := "M2"; volume := 200; priority := 1; print_time := 150 |};
     {| id := "M3"; volume := 80; priority := 2; print_time := 120 |}]
    {| max_volume := 300; max_items := 2 |} =
    {| print_order := ["M1"; "M2"; "M3"]; total_time := 330 |}.
Proof. reflexivity. Qed.

(** The three tests of the module give the results its comments expect. *)
Example test_printing_optimization :
  optimize_printing
    [{| id := "M1"; volume := 100; priority := 1; print_time := 120 |};
     {| id := "M2"; volume := 150; priority := 1; print_time := 90 |};
     {| id := "M3"; volume := 120; priority := 1; print_time := 150 |}]
    {| max_volume := 300; max_items := 2 |} =
    {| print_order := ["M1"; "M2"; "M3"]; total_time := 270 |} ∧
  optimize_printing
    [{| id := "M1"; volume := 100; priority := 2; print_time := 120 |};
     {| id := "M2"; volume := 150; priority := 1; print_time := 90 |};
     {| id := "M3"; volume := 120; priority := 3; print_time := 150 |}]
    {| max_volume := 300; max_items := 2 |} =
    {| print_order := ["M2"; "M1"; "M3"]; total_time := 270 |} ∧
  optimize_printing
    [{| id := "M1"; volume := 250; priority := 1; print_time := 180 |};
     {| id := "M2"; volume := 200; priority := 1; print_time := 150 |};
     {| id := "M3"; volume := 180; priority := 2; print_time := 120 |}]
    {| max_volume := 300; max_items := 2 |} =
    {| print_order := ["M1"; "M2"; "M3"]; total_time := 450 |}.
Proof. repeat split. Qed.

End PrintQueue.

(** ** Further properties of the rod-cutting solvers *)

Module RodCuttingFacts.
Import Py PyFacts Task2 RodCutting.

(** *** Cut lists under list operations *)

Lemma profit_of_app_cuts prices c1 c2 :
  profit_of prices (c1 ++ c2) = profit_of prices c1 + profit_of prices c2.
Proof. unfold profit_of. by rewrite fmap_app, sum_app. Qed.

Lemma profit_of_reverse prices c :
  profit_of prices (reverse c) = profit_of prices c.
Proof. unfold profit_of. by rewrite fmap_reverse, sum_reverse. Qed.

Lemma valid_cuts_app c1 c2 n1 n2 :
  valid_cuts c1 n1 → valid_cuts c2 n2 → valid_cuts (c1 ++ c2) (n1 + n2).
Proof.
  intros [Hp1 Hs1] [Hp2 Hs2]. split.
  - by apply Forall_app.
  - rewrite sum_app. lia.
Qed.

Lemma valid_cuts_whole n : 1 ≤ n → valid_cuts [n] n.
Proof.
  intros Hn. split; [by repeat constructor|]. unfold sum. simpl. lia.
Qed.

(** A cutting has at most as many segments as the rod has units. *)
Lemma valid_cuts_length c n : valid_cuts c n → len c ≤ n.
Proof.
  revert n. induction c as [|i c IH]; intros n.
  - intros Hv. apply valid_cuts_nonneg in Hv. unfold len. simpl. lia.
  - rewrite valid_cuts_cons. intros [Hi Hc]. apply IH in Hc.
    unfold len in *. simpl. lia.
Qed.

Lemma count_cuts_reverse c : count_cuts (reverse c) = count_cuts c.
Proof. rewrite !count_cuts_max. unfold len. by rewrite length_reverse. Qed.

(** *** Price tables that agree on the lengths in use *)

Lemma profit_of_ext prices1 prices2 c m n :
  (∀ i, 1 ≤ i ≤ n → price_of prices1 i = price_of prices2 i) →
  valid_cuts c m → m ≤ n →
  profit_of prices1 c = profit_of prices2 c.
Proof.
  intros Hagree Hc Hm. apply valid_cuts_bounded in Hc.
  induction Hc as [|i c Hi _ IH]; [done|].
  rewrite !profit_of_cons, IH. f_equal. apply Hagree. lia.
Qed.

Lemma profit_of_mono prices1 prices2 c m n :
  (∀ i, 1 ≤ i ≤ n → price_of prices1 i ≤ price_of prices2 i) →
  valid_cuts c m → m ≤ n →
  profit_of prices1 c ≤ profit_of prices2 c.
Proof.
  intros Hle Hc Hm. apply valid_cuts_bounded in Hc.
  induction Hc as [|i c Hi _ IH]; [done|].
  rewrite !profit_of_cons. specialize (Hle i ltac:(lia)). lia.
Qed.

Lemma canon_ext prices1 prices2 n c :
  (∀ i, 1 ≤ i ≤ n → price_of prices1 i = price_of prices2 i) →
  canon prices1 n c → canon prices2 n c.
Proof.
  intros Hagree Hc. induction Hc as [|n i rest Hi Hrest IH Hle Hlt].
  - constructor.
  - assert (Hrest2 : profit_of prices1 rest = profit_of prices2 rest).
    { eapply (profit_of_ext _ _ _ (n - i) n); [done| |lia].
      by eapply canon_valid. }
    constructor; [done|..].
    + apply IH. intros i' Hi'. apply Hagree. lia.
    + intros i' c' Hi' Hc'.
      rewrite <- (Hagree i'), <- (Hagree i), <- Hrest2 by lia.
      rewrite <- (profit_of_ext prices1 prices2 c' (n - i') n) by (done || lia).
      by apply Hle.
    + intros i' c' Hi' Hc'.
      rewrite <- (Hagree i'), <- (Hagree i), <- Hrest2 by lia.
      rewrite <- (profit_of_ext prices1 prices2 c' (n - i') n) by (done || lia).
      by apply Hlt.
Qed.

Lemma price_of_take prices1 prices2 length :
  take (Z.to_nat length) prices1 = take (Z.to_nat length) prices2 →
  ∀ i, 1 ≤ i ≤ length → price_of prices1 i = price_of prices2 i.
Proof.
  intros Htake i Hi. unfold price_of.
  rewrite <- (lookup_take_lt prices1 (Z.to_nat length)) by lia.
  rewrite <- (lookup_take_lt prices2 (Z.to_nat length)) by lia.
  by rewrite Htake.
Qed.

(** Both solvers return the canonical cut list, one of them reversed. *)
Lemma solvers_canon prices length :
  0 ≤ length ≤ len prices →
  ∃ c, canon prices length c ∧
    rod_cutting_memo length prices =
      Ok {| max_profit := Int (profit_of prices c); cuts := c;
            number_of_cuts := count_cuts c |} ∧
    rod_cutting_table length prices =
      Ok {| max_profit := Int (profit_of prices c); cuts := reverse c;
            number_of_cuts := count_cuts (reverse c) |}.
Proof.
  intros Hl.
  destruct (rod_cutting_memo_ok prices length Hl) as (c1 & Hc1 & Hmemo).
  destruct (rod_cutting_table_ok prices length Hl) as (c2 & Hc2 & Htable).
  rewrite (canon_unique _ _ _ _ Hc2 Hc1) in Htable. eauto.
Qed.

Lemma covered_4 : 0 ≤ 4 ≤ len [3; 5; 6; 7].
Proof. unfold len. simpl. lia. Defined.

(** *** The returned cuts and profit *)

(** The prices of the returned segments add up to the returned
    [max_profit], for both solvers, whenever the price table covers the
    (non-negative) length. *)
Theorem cuts_realise_max_profit length prices :
  0 ≤ length ≤ len prices →
  ∃ r1 r2,
    rod_cutting_memo length prices = Ok r1 ∧
    rod_cutting_table length prices = Ok r2 ∧
    max_profit r1 = Int (profit_of prices (cuts r1)) ∧
    max_profit r2 = Int (profit_of prices (cuts r2)).
Proof.
  intros Hl.
  destruct (rod_cutting_memo_ok prices length Hl) as (c1 & _ & Hmemo).
  destruct (rod_cutting_table_ok prices length Hl) as (c2 & _ & Htable).
  eexists _, _. split; [exact Hmemo|]. split; [exact Htable|].
  cbn [max_profit cuts]. by rewrite profit_of_reverse.
Qed.

Lemma cuts_realise_max_profit_witness :
  0 ≤ 4 ≤ len [3; 5; 6; 7] ∧
  ∃ r1 r2,
    rod_cutting_memo 4 [3; 5; 6; 7] = Ok r1 ∧
    rod_cutting_table 4 [3; 5; 6; 7] = Ok r2 ∧
    max_profit r1 = Int (profit_of [3; 5; 6; 7] (cuts r1)) ∧
    max_profit r2 = Int (profit_of [3; 5; 6; 7] (cuts r2)).
Proof.
  split; [exact covered_4|].
  exact (cuts_realise_max_profit 4 [3; 5; 6; 7] covered_4).
Defined.

(** No way of cutting the rod into whole segments sells for more than
    the [max_profit] either solver returns. *)
Theorem max_profit_is_maximum length prices c :
  0 ≤ length ≤ len prices → valid_cuts c length →
  ∃ v r1 r2,
    rod_cutting_memo length prices = Ok r1 ∧
    rod_cutting_table length prices = Ok r2 ∧
    max_profit r1 = Int v ∧ max_profit r2 = Int v ∧
    profit_of prices c ≤ v.
Proof.
  intros Hl Hc.
  destruct (rod_cutting_memo_ok prices length Hl) as (c1 & Hc1 & Hmemo).
  destruct (rod_cutting_table_ok prices length Hl) as (c2 & Hc2 & Htable).
  rewrite (canon_unique _ _ _ _ Hc2 Hc1) in Htable.
  eexists _, _, _. split; [exact Hmemo|]. split; [exact Htable|].
  split; [done|]. split; [done|].
  by apply (canon_optimal _ _ _ Hc1).
Qed.

Lemma valid_cuts_1_3 : valid_cuts [1; 3] 4.
Proof. split; [repeat constructor; lia|reflexivity]. Defined.

Lemma max_profit_is_maximum_witness :
  0 ≤ 4 ≤ len [3; 5; 6; 7] ∧ valid_cuts [1; 3] 4 ∧
  ∃ v r1 r2,
    rod_cutting_memo 4 [3; 5; 6; 7] = Ok r1 ∧
    rod_cutting_table 4 [3; 5; 6; 7] = Ok r2 ∧
    max_profit r1 = Int v ∧ max_profit r2 = Int v ∧
    profit_of [3; 5; 6; 7] [1; 3] ≤ v.
Proof.
  split; [exact covered_4|]. split; [exact valid_cuts_1_3|].
  exact (max_profit_is_maximum 4 [3; 5; 6; 7] [1; 3] covered_4 valid_cuts_1_3).
Defined.

(** Cutting never earns less than selling the rod whole: for a rod of
    length at least 1 the returned [max_profit] is at least
    [prices[length - 1]]. *)
Theorem max_profit_at_least_uncut length prices :
  1 ≤ length ≤ len prices →
  ∃ v p r1 r2,
    rod_cutting_memo length prices = Ok r1 ∧
    rod_cutting_table length prices = Ok r2 ∧
    max_profit r1 = Int v ∧ max_profit r2 = Int v ∧
    getitem prices (length - 1) = Ok p ∧ p ≤ v.
Proof.
  intros Hl. assert (Hl0 : 0 ≤ length ≤ len prices) by lia.
  destruct (rod_cutting_memo_ok prices length Hl0) as (c1 & Hc1 & Hmemo).
  destruct (rod_cutting_table_ok prices length Hl0) as (c2 & Hc2 & Htable).
  rewrite (canon_unique _ _ _ _ Hc2 Hc1) in Htable.
  eexists _, _, _, _. split; [exact Hmemo|]. split; [exact Htable|].
  split; [done|]. split; [done|]. split; [by apply getitem_price|].
  destruct (canon_optimal _ _ _ Hc1) as [_ Hopt].
  assert (Hwhole : valid_cuts [length] length) by (apply valid_cuts_whole; lia).
  specialize (Hopt [length] Hwhole).
  rewrite (profit_of_cons prices length []) in Hopt.
  change (profit_of prices []) with 0 in Hopt. lia.
Qed.

Lemma covered_from_1_4 : 1 ≤ 4 ≤ len [3; 5; 6; 7].
Proof. unfold len. simpl. lia. Defined.

Lemma max_profit_at_least_uncut_witness :
  1 ≤ 4 ≤ len [3; 5; 6; 7] ∧
  ∃ v p r1 r2,
    rod_cutting_memo 4 [3; 5; 6; 7] = Ok r1 ∧
    rod_cutting_table 4 [3; 5; 6; 7] = Ok r2 ∧
    max_profit r1 = Int v ∧ max_profit r2 = Int v ∧
    getitem [3; 5; 6; 7] (4 - 1) = Ok p ∧ p ≤ v.
Proof.
  split; [exact covered_from_1_4|].
  exact (max_profit_at_least_uncut 4 [3; 5; 6; 7] covered_from_1_4).
Defined.

(** The two solvers return the same segments up to order, and the same
    [number_of_cuts]. *)
Theorem solvers_same_segments length prices :
  0 ≤ length ≤ len prices →
  ∃ r1 r2,
    rod_cutting_memo length prices = Ok r1 ∧
    rod_cutting_table length prices = Ok r2 ∧
    cuts r2 ≡ₚ cuts r1 ∧
    number_of_cuts r2 = number_of_cuts r1.
Proof.
  intros Hl.
  destruct (rod_cutting_memo_ok prices length Hl) as (c1 & Hc1 & Hmemo).
  destruct (rod_cutting_table_ok prices length Hl) as (c2 & Hc2 & Htable).
  rewrite (canon_unique _ _ _ _ Hc2 Hc1) in Htable.
  eexists _, _. split; [exact Hmemo|]. split; [exact Htable|].
  cbn [cuts number_of_cuts]. split.
  - apply reverse_Permutation.
  - apply count_cuts_reverse.
Qed.

Lemma solvers_same_segments_witness :
  0 ≤ 4 ≤ len [3; 5; 6; 7] ∧
  ∃ r1 r2,
    rod_cutting_memo 4 [3; 5; 6; 7] = Ok r1 ∧
    rod_cutting_table 4 [3; 5; 6; 7] = Ok r2 ∧
    cuts r2 ≡ₚ cuts r1 ∧
    number_of_cuts r2 = number_of_cuts r1.
Proof.
  split; [exact covered_4|].
  exact (solvers_same_segments 4 [3; 5; 6; 7] covered_4).
Defined.

(** For a rod of length at least 1 both solvers report between 0 and
    [length - 1] cuts, and at most [length] segments. *)
Theorem number_of_cuts_bounded length prices :
  1 ≤ length ≤ len prices →
  ∃ r1 r2,
    rod_cutting_memo length prices = Ok r1 ∧
    rod_cutting_table length prices = Ok r2 ∧
    0 ≤ number_of_cuts r1 ≤ length - 1 ∧
    0 ≤ number_of_cuts r2 ≤ length - 1 ∧
    len (cuts r1) ≤ length ∧ len (cuts r2) ≤ length.
Proof.
  intros Hl. assert (Hl0 : 0 ≤ length ≤ len prices) by lia.
  destruct (rod_cutting_memo_ok prices length Hl0) as (c1 & Hc1 & Hmemo).
  destruct (rod_cutting_table_ok prices length Hl0) as (c2 & Hc2 & Htable).
  rewrite (canon_unique _ _ _ _ Hc2 Hc1) in Htable.
  eexists _, _. split; [exact Hmemo|]. split; [exact Htable|].
  cbn [cuts number_of_cuts]. rewrite count_cuts_reverse, count_cuts_max.
  pose proof (valid_cuts_length _ _ (canon_valid _ _ _ Hc1)) as Hlen.
  assert (len (reverse c1) = len c1) as -> by (unfold len; by rewrite length_reverse).
  lia.
Qed.

Lemma number_of_cuts_bounded_witness :
  1 ≤ 4 ≤ len [3; 5; 6; 7] ∧
  ∃ r1 r2,
    rod_cutting_memo 4 [3; 5; 6; 7] = Ok r1 ∧
    rod_cutting_table 4 [3; 5; 6; 7] = Ok r2 ∧
    0 ≤ number_of_cuts r1 ≤ 4 - 1 ∧
    0 ≤ number_of_cuts r2 ≤ 4 - 1 ∧
    len (cuts r1) ≤ 4 ∧ len (cuts r2) ≤ 4.
Proof.
  split; [exact covered_from_1_4|].
  exact (number_of_cuts_bounded 4 [3; 5; 6; 7] covered_from_1_4).
Defined.

(** *** How the result depends on the inputs *)

(** Only the first [length] prices are read: two price tables with the
    same first [length] entries give the same result, with either
    solver. *)
Theorem result_depends_on_prefix length prices1 prices2 :
  0 ≤ length → length ≤ len prices1 → length ≤ len prices2 →
  take (Z.to_nat length) prices1 = take (Z.to_nat length) prices2 →
  rod_cutting_memo length prices1 = rod_cutting_memo length prices2 ∧
  rod_cutting_table length prices1 = rod_cutting_table length prices2.
Proof.
  intros Hl H1 H2 Htake.
  pose proof (price_of_take _ _ _ Htake) as Hagree.
  destruct (rod_cutting_memo_ok prices1 length) as (c1 & Hc1 & ->); [done|].
  destruct (rod_cutting_table_ok prices1 length) as (c1' & Hc1' & ->); [done|].
  destruct (rod_cutting_memo_ok prices2 length) as (c2 & Hc2 & ->); [done|].
  destruct (rod_cutting_table_ok prices2 length) as (c2' & Hc2' & ->); [done|].
  apply (canon_ext _ _ _ _ Hagree) in Hc1, Hc1'.
  rewrite (canon_unique _ _ _ _ Hc1 Hc2), (canon_unique _ _ _ _ Hc1' Hc2).
  rewrite (canon_unique _ _ _ _ Hc2' Hc2).
  rewrite (profit_of_ext prices1 prices2 c2 length length Hagree);
    [done|by eapply canon_valid|lia].
Qed.

Lemma result_depends_on_prefix_witness :
  0 ≤ 2 ∧ 2 ≤ len [3; 5; 6; 7] ∧ 2 ≤ len [3; 5] ∧
  take (Z.to_nat 2) [3; 5; 6; 7] = take (Z.to_nat 2) [3; 5] ∧
  rod_cutting_memo 2 [3; 5; 6; 7] = rod_cutting_memo 2 [3; 5] ∧
  rod_cutting_table 2 [3; 5; 6; 7] = rod_cutting_table 2 [3; 5].
Proof.
  assert (H0 : 0 ≤ 2) by lia.
  assert (H1 : 2 ≤ len [3; 5; 6; 7]) by (unfold len; simpl; lia).
  assert (H2 : 2 ≤ len [3; 5]) by (unfold len; simpl; lia).
  assert (Ht : take (Z.to_nat 2) [3; 5; 6; 7] = take (Z.to_nat 2) [3; 5])
    by reflexivity.
  split; [exact H0|]. split; [exact H1|]. split; [exact H2|]. split; [exact Ht|].
  exact (result_depends_on_prefix 2 [3; 5; 6; 7] [3; 5] H0 H1 H2 Ht).
Defined.

(** Raising prices never lowers the result: if every price for the
    lengths [1..length] is at least as high in the second table, so is
    the [max_profit] of either solver. *)
Theorem max_profit_monotone_in_prices length prices1 prices2 :
  0 ≤ length → length ≤ len prices1 → length ≤ len prices2 →
  (∀ i, 1 ≤ i ≤ length → price_of prices1 i ≤ price_of prices2 i) →
  ∃ v1 v2 m1 m2 t1 t2,
    rod_cutting_memo length prices1 = Ok m1 ∧
    rod_cutting_memo length prices2 = Ok m2 ∧
    rod_cutting_table length prices1 = Ok t1 ∧
    rod_cutting_table length prices2 = Ok t2 ∧
    max_profit m1 = Int v1 ∧ max_profit m2 = Int v2 ∧
    max_profit t1 = Int v1 ∧ max_profit t2 = Int v2 ∧ v1 ≤ v2.
Proof.
  intros Hl H1 H2 Hle.
  destruct (solvers_canon prices1 length) as (c1 & Hc1 & Hm1 & Ht1); [done|].
  destruct (solvers_canon prices2 length) as (c2 & Hc2 & Hm2 & Ht2); [done|].
  eexists _, _, _, _, _, _.
  split; [exact Hm1|]. split; [exact Hm2|].
  split; [exact Ht1|]. split; [exact Ht2|].
  do 4 (split; [done|]).
  pose proof (canon_valid _ _ _ Hc1) as Hv1.
  etrans; [apply (profit_of_mono prices1 prices2 c1 length length Hle Hv1); lia|].
  by apply (canon_optimal _ _ _ Hc2).
Qed.

Lemma max_profit_monotone_in_prices_witness :
  0 ≤ 2 ∧ 2 ≤ len [3; 5] ∧ 2 ≤ len [3; 9] ∧
  (∀ i, 1 ≤ i ≤ 2 → price_of [3; 5] i ≤ price_of [3; 9] i) ∧
  ∃ v1 v2 m1 m2 t1 t2,
    rod_cutting_memo 2 [3; 5] = Ok m1 ∧
    rod_cutting_memo 2 [3; 9] = Ok m2 ∧
    rod_cutting_table 2 [3; 5] = Ok t1 ∧
    rod_cutting_table 2 [3; 9] = Ok t2 ∧
    max_profit m1 = Int v1 ∧ max_profit m2 = Int v2 ∧
    max_profit t1 = Int v1 ∧ max_profit t2 = Int v2 ∧ v1 ≤ v2.
Proof.
  assert (H0 : 0 ≤ 2) by lia.
  assert (H1 : 2 ≤ len [3; 5]) by (unfold len; simpl; lia).
  assert (H2 : 2 ≤ len [3; 9]) by (unfold len; simpl; lia).
  assert (Hle : ∀ i, 1 ≤ i ≤ 2 → price_of [3; 5] i ≤ price_of [3; 9] i).
  { intros i Hi. assert (i = 1 ∨ i = 2) as [->| ->] by lia; vm_compute; discriminate. }
  split; [exact H0|]. split; [exact H1|]. split; [exact H2|]. split; [exact Hle|].
  exact (max_profit_monotone_in_prices 2 [3; 5] [3; 9] H0 H1 H2 Hle).
Defined.

(** Two rods sold separately never earn more than one rod of their
    combined length: with either solver, [max_profit] for [a + b] is
    at least the sum of those for [a] and for [b]. *)
Theorem max_profit_superadditive a b prices :
  0 ≤ a → 0 ≤ b → a + b ≤ len prices →
  ∃ va vb vab ma mb mab ta tb tab,
    rod_cutting_memo a prices = Ok ma ∧
    rod_cutting_memo b prices = Ok mb ∧
    rod_cutting_memo (a + b) prices = Ok mab ∧
    rod_cutting_table a prices = Ok ta ∧
    rod_cutting_table b prices = Ok tb ∧
    rod_cutting_table (a + b) prices = Ok tab ∧
    max_profit ma = Int va ∧ max_profit mb = Int vb ∧ max_profit mab = Int vab ∧
    max_profit ta = Int va ∧ max_profit tb = Int vb ∧ max_profit tab = Int vab ∧
    va + vb ≤ vab.
Proof.
  intros Ha Hb Hab.
  destruct (solvers_canon prices a) as (ca & Hca & Hma & Hta); [lia|].
  destruct (solvers_canon prices b) as (cb & Hcb & Hmb & Htb); [lia|].
  destruct (solvers_canon prices (a + b)) as (cab & Hcab & Hmab & Htab); [lia|].
  eexists _, _, _, _, _, _, _, _, _.
  split; [exact Hma|]. split; [exact Hmb|]. split; [exact Hmab|].
  split; [exact Hta|]. split; [exact Htb|]. split; [exact Htab|].
  do 6 (split; [done|]).
  rewrite <- profit_of_app_cuts.
  apply (canon_optimal _ _ _ Hcab).
  apply valid_cuts_app; by eapply canon_valid.
Qed.

Lemma max_profit_superadditive_witness :
  0 ≤ 1 ∧ 0 ≤ 2 ∧ 1 + 2 ≤ len [1; 3; 8] ∧
  ∃ va vb vab ma mb mab ta tb tab,
    rod_cutting_memo 1 [1; 3; 8] = Ok ma ∧
    rod_cutting_memo 2 [1; 3; 8] = Ok mb ∧
    rod_cutting_memo (1 + 2) [1; 3; 8] = Ok mab ∧
    rod_cutting_table 1 [1; 3; 8] = Ok ta ∧
    rod_cutting_table 2 [1; 3; 8] = Ok tb ∧
    rod_cutting_table (1 + 2) [1; 3; 8] = Ok tab ∧
    max_profit ma = Int va ∧ max_profit mb = Int vb ∧ max_profit mab = Int vab ∧
    max_profit ta = Int va ∧ max_profit tb = Int vb ∧ max_profit tab = Int vab ∧
    va + vb ≤ vab.
Proof.
  assert (Ha : 0 ≤ 1) by lia. assert (Hb : 0 ≤ 2) by lia.
  assert (Hab : 1 + 2 ≤ len [1; 3; 8]) by (unfold len; simpl; lia).
  split; [exact Ha|]. split; [exact Hb|]. split; [exact Hab|].
  exact (max_profit_superadditive 1 2 [1; 3; 8] Ha Hb Hab).
Defined.

(** *** The tables and the memo dictionary *)

Lemma build_tables_negative length prices :
  length < 0 → build_tables length prices = Raise IndexError.
Proof.
  intros Hl. unfold build_tables, repeat_list.
  replace (Z.to_nat (length + 1)) with O by lia. cbn [replicate].
  by rewrite setitem_empty.
Qed.

Lemma build_tables_Ok_covered length prices dp first_cut :
  build_tables length prices = Ok (dp, first_cut) → 0 ≤ length ≤ len prices.
Proof.
  intros Hrun. destruct (invalid_input_cases length prices) as [Hs|[Hn|Hl]]; [..|done].
  - by rewrite build_tables_short in Hrun.
  - by rewrite build_tables_negative in Hrun.
Qed.

(** Whenever the nested loops of [rod_cutting_table] complete, both
    tables have [length + 1] entries, [dp[0]] is 0, and for every [j]
    from 1 to [length] the recorded first cut satisfies
    [1 <= first_cut[j] <= j]; so each pass of the reconstruction loop
    strictly shortens the remaining rod and never overshoots. *)
Theorem first_cut_in_range length prices dp first_cut :
  build_tables length prices = Ok (dp, first_cut) →
  len dp = length + 1 ∧ len first_cut = length + 1 ∧
  getitem dp 0 = Ok (Int 0) ∧
  ∀ j, 1 ≤ j ≤ length →
    ∃ i, getitem first_cut j = Ok i ∧ 1 ≤ i ≤ j.
Proof.
  intros Hrun. pose proof (build_tables_Ok_covered _ _ _ _ Hrun) as Hl.
  destruct (build_tables_ok prices length Hl) as (dp' & fc' & Hrun' & Hldp & Hlfc & Htab).
  rewrite Hrun in Hrun'. injection Hrun' as <- <-.
  unfold len. split; [lia|]. split; [lia|]. split.
  - destruct (Htab 0) as (c & Hc & Hdp & _); [lia|].
    rewrite (valid_cuts_zero _ (canon_valid _ _ _ Hc)) in Hdp.
    by apply getitem_Some.
  - intros j Hj. destruct (Htab j) as (c & Hc & _ & Hfc); [lia|].
    destruct Hfc as (i & rest & -> & Hfc); [lia|].
    exists i. split; [apply getitem_Some; [lia|done]|].
    by inversion Hc.
Qed.

Lemma build_tables_5 :
  build_tables 5 [2; 5; 7; 8; 10] =
    Ok ([Int 0; Int 2; Int 5; Int 7; Int 10; Int 12], [0; 1; 2; 1; 2; 1]).
Proof. vm_compute. reflexivity. Defined.

Lemma first_cut_in_range_witness :
  build_tables 5 [2; 5; 7; 8; 10] =
    Ok ([Int 0; Int 2; Int 5; Int 7; Int 10; Int 12], [0; 1; 2; 1; 2; 1]) ∧
  len [Int 0; Int 2; Int 5; Int 7; Int 10; Int 12] = 5 + 1 ∧
  len [0; 1; 2; 1; 2; 1] = 5 + 1 ∧
  getitem [Int 0; Int 2; Int 5; Int 7; Int 10; Int 12] 0 = Ok (Int 0) ∧
  ∀ j, 1 ≤ j ≤ 5 →
    ∃ i, getitem [0; 1; 2; 1; 2; 1] j = Ok i ∧ 1 ≤ i ≤ j.
Proof.
  split; [exact build_tables_5|].
  exact (first_cut_in_range 5 [2; 5; 7; 8; 10] _ _ build_tables_5).
Defined.


(** The keys a run of the loop of [helper(n)] adds to the memo are
    lengths from 1 to [n - 1]. *)
Lemma helper_loop_keys rec prices n :
  (∀ k m r m', 0 ≤ k → rec k m = Ok (r, m') →
     ∀ key, is_Some (m' !! key) → is_Some (m !! key) ∨ 1 ≤ key ≤ k) →
  ∀ l st m st' m',
    Forall (λ i, 1 ≤ i ≤ n) l →
    for_each (helper_body rec prices n) l (st, m) = Ok (st', m') →
    ∀ key, is_Some (m' !! key) → is_Some (m !! key) ∨ 1 ≤ key ≤ n - 1.
Proof.
  intros Hrec. induction l as [|i l IH]; intros st m st' m' Hl Hrun key Hkey.
  - injection Hrun as <- <-. by left.
  - apply Forall_cons in Hl as [Hi Hl]. cbn [for_each] in Hrun.
    destruct (helper_body rec prices n i (st, m)) as [[st1 m1]| |] eqn:Hbody;
      try discriminate.
    rewrite bind_Ok in Hrun.
    destruct (IH _ _ _ _ Hl Hrun key Hkey) as [Hm1|]; [|by right].
    assert (Hstep : is_Some (m !! key) ∨ 1 ≤ key ≤ n - i).
    { unfold helper_body in Hbody. destruct st as [v b].
      destruct (getitem prices (i - 1)); try discriminate.
      rewrite bind_Ok in Hbody.
      destruct (rec (n - i) m) as [[[p c] m0]| |] eqn:Hcall; try discriminate.
      rewrite bind_Ok in Hbody.
      assert (m1 = m0) as -> by (destruct (num_gt _ _); by injection Hbody).
      assert (Hk : 0 ≤ n - i) by lia.
      apply (Hrec _ _ _ _ Hk Hcall key Hm1). }
    destruct Hstep; [by left|right; lia].
Qed.

Lemma helper_keys prices fuel :
  ∀ n m r m', 0 ≤ n → helper fuel prices n m = Ok (r, m') →
    ∀ key, is_Some (m' !! key) → is_Some (m !! key) ∨ 1 ≤ key ≤ n.
Proof.
  induction fuel as [|fuel IH]; intros n m r m' Hn Hrun key Hkey; [done|].
  cbn [helper] in Hrun. case_bool_decide as H0.
  { injection Hrun as <- <-. by left. }
  destruct (m !! n) as [r0|] eqn:Hlk.
  { injection Hrun as <- <-. by left. }
  destruct (for_each _ _ _) as [[r1 m1]| |] eqn:Hloop; try discriminate.
  rewrite bind_Ok in Hrun. injection Hrun as <- <-.
  destruct (decide (key = n)) as [->|Hne]; [right; lia|].
  rewrite lookup_insert_ne in Hkey by done.
  assert (Hrange : Forall (λ i, 1 ≤ i ≤ n) (range 1 (n + 1))).
  { apply Forall_seqZ. intros; lia. }
  destruct (helper_loop_keys _ prices n IH _ _ _ _ _ Hrange Hloop key Hkey) as [|];
    [by left|right; lia].
Qed.

Lemma memo_after_Ok_covered length prices memo :
  memo_after length prices = Ok memo → length ≤ len prices.
Proof.
  intros Hrun. destruct (decide (length ≤ len prices)) as [|Hn]; [done|].
  unfold memo_after in Hrun.
  rewrite helper_raise in Hrun;
    [done|lia|unfold helper_fuel; lia|apply memo_ok_empty].
Qed.

(** When [helper(length)] has returned, for a non-negative [length],
    the memo dictionary holds exactly the keys [1..length]: every
    sub-length was solved and stored, and nothing else (in particular
    not the base case 0). *)
Theorem memo_keys_1_to_length length prices memo :
  0 ≤ length → memo_after length prices = Ok memo →
  ∀ k, is_Some (memo !! k) ↔ 1 ≤ k ≤ length.
Proof.
  intros Hl Hrun k. pose proof (memo_after_Ok_covered _ _ _ Hrun) as Hlen.
  split.
  - intros Hk. unfold memo_after in Hrun.
    destruct (helper _ _ _ _) as [[r m]| |] eqn:Hhelper; try discriminate.
    rewrite bind_Ok in Hrun. injection Hrun as <-.
    destruct (helper_keys _ _ _ _ _ _ Hl Hhelper k Hk) as [Hempty|]; [|done].
    rewrite lookup_empty in Hempty. by destruct Hempty.
  - intros Hk.
    destruct (memo_after_ok prices length) as (m & Hrun' & [_ Hclosed] & Hin); [lia|].
    rewrite Hrun in Hrun'. injection Hrun' as <-.
    apply (Hclosed length); [apply Hin; lia|done].
Qed.

Lemma memo_after_3 :
  memo_after 3 [1; 3; 4] =
    Ok (<[3 := (Int 4, [1; 2])]> (<[2 := (Int 3, [2])]> (<[1 := (Int 1, [1])]> ∅))).
Proof. vm_compute. reflexivity. Defined.

Lemma memo_keys_1_to_length_witness :
  0 ≤ 3 ∧
  memo_after 3 [1; 3; 4] =
    Ok (<[3 := (Int 4, [1; 2])]> (<[2 := (Int 3, [2])]> (<[1 := (Int 1, [1])]> ∅))) ∧
  ∀ k, is_Some ((<[3 := (Int 4, [1; 2])]> (<[2 := (Int 3, [2])]>
                  (<[1 := (Int 1, [1])]> (∅ : gmap Z (num * list Z))))) !! k)
       ↔ 1 ≤ k ≤ 3.
Proof.
  assert (H0 : 0 ≤ 3) by lia.
  split; [exact H0|]. split; [exact memo_after_3|].
  exact (memo_keys_1_to_length 3 [1; 3; 4] _ H0 memo_after_3).
Defined.

End RodCuttingFacts.

(** ** Further properties of the print queue *)

Module PrintQueueFacts.
Import Py PyFacts Task1 PrintQueue.

Section Queue.
Context {V : Type} `{Volume V}.

(** *** Order of printing *)

(** Jobs are printed by non-decreasing priority value, and jobs of the
    same priority in the order they were submitted: [print_order] lists
    the ids of the stable sort of the input by priority. *)
Theorem print_order_by_priority (print_jobs : list (PrintJob V)) constraints :
  ∃ sorted,
    print_order (optimize_printing print_jobs constraints) = id <$> sorted ∧
    sorted ≡ₚ print_jobs ∧
    StronglySorted (λ a b, priority a ≤ priority b) sorted ∧
    ∀ p, filter (λ j, priority j = p) sorted =
         filter (λ j, priority j = p) print_jobs.
Proof.
  exists (sort_by_priority print_jobs).
  split; [apply print_order_sorted|].
  split; [apply sort_by_priority_perm|].
  split; [apply sort_by_priority_sorted|].
  intros p. apply sort_by_priority_stable.
Qed.

(** The constraints decide the batches and the time, never the order:
    any two constraints give the same [print_order]. *)
Theorem print_order_ignores_constraints (print_jobs : list (PrintJob V)) c1 c2 :
  print_order (optimize_printing print_jobs c1) =
  print_order (optimize_printing print_jobs c2).
Proof. by rewrite !print_order_sorted. Qed.

(** *** Total time *)

Lemma times_ok_initial : times_ok (initial (V := V)).
Proof. unfold times_ok, initial. lia. Qed.

Lemma step_times printer (st : loop_state V) job :
  times_ok st → 0 ≤ print_time job →
  times_ok (step printer st job) ∧
  elapsed st ≤ elapsed (step printer st job) ≤ elapsed st + print_time job ∧
  print_time job ≤ elapsed (step printer st job).
Proof.
  destruct st as [[[[o t] g] v] gt]. intros (Ht & Hgt & Hempty) Hjob.
  unfold step. destruct (fits _ _ _).
  - destruct g as [|x g]; cbn [times_ok elapsed app].
    + rewrite Hempty by done. split; [|lia]. split; [lia|]. split; [lia|done].
    + split; [|lia]. split; [lia|]. split; [lia|done].
  - destruct g as [|x g]; cbn [flush times_ok elapsed].
    + split; [|lia]. split; [lia|]. split; [lia|done].
    + split; [|lia]. split; [lia|]. split; [lia|done].
Qed.

Lemma run_times printer jobs :
  ∀ st : loop_state V,
    times_ok st → Forall (λ job, 0 ≤ print_time job) jobs →
    times_ok (fold_left (step printer) jobs st) ∧
    elapsed st ≤ elapsed (fold_left (step printer) jobs st)
      ≤ elapsed st + sum (print_time <$> jobs) ∧
    Forall (λ job, print_time job ≤ elapsed (fold_left (step printer) jobs st)) jobs.
Proof.
  induction jobs as [|job jobs IH]; intros st Hst Hjobs.
  - cbn [fold_left]. split; [done|]. split; [|constructor].
    unfold sum. simpl. lia.
  - apply Forall_cons in Hjobs as [Hjob Hjobs]. cbn [fold_left].
    destruct (step_times printer st job Hst Hjob) as (Hst1 & Hel1 & Hge1).
    destruct (IH _ Hst1 Hjobs) as (Hst2 & Hel2 & Hall).
    split; [done|]. rewrite fmap_cons, sum_cons.
    split; [lia|]. constructor; [lia|done].
Qed.

(** With non-negative print times, batching never takes longer than
    printing the jobs one after another, and never a negative time. *)
Theorem total_time_at_most_sum (print_jobs : list (PrintJob V)) constraints :
  Forall (λ job, 0 ≤ print_time job) print_jobs →
  0 ≤ total_time (optimize_printing print_jobs constraints)
    ≤ sum (print_time <$> print_jobs).
Proof.
  intros Hjobs. unfold optimize_printing. rewrite finish_elapsed.
  destruct (run_times constraints (sort_by_priority print_jobs) initial)
    as (_ & Hel & _); [apply times_ok_initial|by rewrite sort_by_priority_perm|].
  cbn [elapsed initial] in Hel.
  rewrite (sum_perm (print_time <$> sort_by_priority print_jobs)
                    (print_time <$> print_jobs)) in Hel
    by (by rewrite sort_by_priority_perm).
  lia.
Qed.

(** With non-negative print times, the total time is at least the
    print time of every single job. *)
Theorem total_time_at_least_each (print_jobs : list (PrintJob V)) constraints :
  Forall (λ job, 0 ≤ print_time job) print_jobs →
  Forall (λ job, print_time job ≤ total_time (optimize_printing print_jobs constraints))
         print_jobs.
Proof.
  intros Hjobs. unfold optimize_printing. rewrite finish_elapsed.
  destruct (run_times constraints (sort_by_priority print_jobs) initial)
    as (_ & _ & Hall); [apply times_ok_initial|by rewrite sort_by_priority_perm|].
  by rewrite sort_by_priority_perm in Hall.
Qed.

(** *** The current group *)

Lemma step_group_within_limits printer (st : loop_state V) job :
  group_within_limits printer (step printer st job).
Proof.
  destruct st as [[[[o t] g] v] gt]. unfold step.
  destruct (fits _ _ _) eqn:Hfits.
  - right. unfold fits in Hfits. apply andb_true_iff in Hfits as [Hlen Hvol].
    apply bool_decide_eq_true_1 in Hlen. split; [|done].
    unfold len in *. rewrite length_app. simpl. lia.
  - destruct (flush o t g gt). left. simpl. lia.
Qed.

Lemma run_group_within_limits printer (jobs : list (PrintJob V)) :
  group_within_limits printer (fold_left (step printer) jobs initial).
Proof.
  destruct jobs as [|job jobs _] using rev_ind.
  - left. simpl. lia.
  - rewrite fold_left_app. apply step_group_within_limits.
Qed.

(** At every point of the loop, a current group of two or more jobs
    has at most [max_items] jobs and an accumulated volume within
    [max_volume]; only a group of a single job can break the limits. *)
Theorem group_respects_limits printer (jobs : list (PrintJob V)) :
  group_within_limits printer (fold_left (step printer) jobs initial).
Proof. apply run_group_within_limits. Qed.

End Queue.

Lemma nonneg_times_3 :
  Forall (λ job : PrintJob Z, 0 ≤ print_time job)
    [{| id := "M1"; volume := 250; priority := 1; print_time := 180 |};
     {| id := "M2"; volume := 200; priority := 1; print_time := 150 |};
     {| id := "M3"; volume := 180; priority := 2; print_time := 120 |}].
Proof. repeat constructor; simpl; lia. Defined.

Lemma total_time_at_most_sum_witness :
  Forall (λ job : PrintJob Z, 0 ≤ print_time job)
    [{| id := "M1"; volume := 250; priority := 1; print_time := 180 |};
     {| id := "M2"; volume := 200; priority := 1; print_time := 150 |};
     {| id := "M3"; volume := 180; priority := 2; print_time := 120 |}] ∧
  0 ≤ total_time (optimize_printing
        [{| id := "M1"; volume := 250; priority := 1; print_time := 180 |};
         {| id := "M2"; volume := 200; priority := 1; print_time := 150 |};
         {| id := "M3"; volume := 180; priority := 2; print_time := 120 |}]
        {| max_volume := 300; max_items := 2 |})
    ≤ sum (print_time <$>
        [{| id := "M1"; volume := 250; priority := 1; print_time := 180 |};
         {| id := "M2"; volume := 200; priority := 1; print_time := 150 |};
         {| id := "M3"; volume := 180; priority := 2; print_time := 120 |}]).
Proof.
  split; [exact nonneg_times_3|].
  exact (total_time_at_most_sum _ {| max_volume := 300; max_items := 2 |} nonneg_times_3).
Defined.

Lemma total_time_at_least_each_witness :
  Forall (λ job : PrintJob Z, 0 ≤ print_time job)
    [{| id := "M1"; volume := 250; priority := 1; print_time := 180 |};
     {| id := "M2"; volume := 200; priority := 1; print_time := 150 |};
     {| id := "M3"; volume := 180; priority := 2; print_time := 120 |}] ∧
  Forall (λ job : PrintJob Z, print_time job ≤ total_time (optimize_printing
        [{| id := "M1"; volume := 250; priority := 1; print_time := 180 |};
         {| id := "M2"; volume := 200; priority := 1; print_time := 150 |};
         {| id := "M3"; volume := 180; priority := 2; print_time := 120 |}]
        {| max_volume := 300; max_items := 2 |}))
    [{| id := "M1"; volume := 250; priority := 1; print_time := 180 |};
     {| id := "M2"; volume := 200; priority := 1; print_time := 150 |};
     {| id := "M3"; volume := 180; priority := 2; print_time := 120 |}].
Proof.
  split; [exact nonneg_times_3|].
  exact (total_time_at_least_each _ {| max_volume := 300; max_items := 2 |} nonneg_times_3).
Defined.

(** *** Integer volumes *)

Lemma sum_nonneg (l : list Z) : Forall (λ x, 0 ≤ x) l → 0 ≤ sum l.
Proof. induction 1; [done|]. rewrite sum_cons. lia. Qed.

Lemma foldr_max_base (l : list Z) a x :
  foldr Z.max (Z.max a x) l = Z.max x (foldr Z.max a l).
Proof. induction l as [|y l IH]; simpl; lia. Qed.

Lemma fold_left_max (l : list Z) a : fold_left Z.max l a = foldr Z.max a l.
Proof.
  revert a. induction l as [|x l IH]; intros a; [done|].
  cbn [fold_left foldr]. by rewrite IH, foldr_max_base.
Qed.

Lemma foldr_max_perm (l1 l2 : list Z) a :
  l1 ≡ₚ l2 → foldr Z.max a l1 = foldr Z.max a l2.
Proof. induction 1; simpl; lia. Qed.





(** While every job still fits, the loop only grows the current group. *)
Lemma run_all_fit (printer : PrinterConstraints Z) jobs :
  ∀ o t g v gt,
    len g + len jobs ≤ max_items printer →
    Forall (λ job, 0 ≤ volume job) jobs →
    v + sum (volume <$> jobs) ≤ max_volume printer →
    fold_left (step printer) jobs (o, t, g, v, gt) =
      (o, t, g ++ jobs, v + sum (volume <$> jobs),
       fold_left Z.max (print_time <$> jobs) gt).
Proof.
  induction jobs as [|job jobs IH]; intros o t g v gt Hitems Hvols Hvol.
  - cbn [fold_left fmap list_fmap]. rewrite app_nil_r.
    unfold sum. simpl. do 2 f_equal. lia.
  - apply Forall_cons in Hvols as [Hjob Hjobs].
    rewrite fmap_cons, sum_cons in Hvol.
    pose proof (sum_nonneg (volume <$> jobs)) as Hrest.
    rewrite Forall_fmap in Hrest. specialize (Hrest Hjobs).
    assert (Hfits : fits printer (o, t, g, v, gt) job = true).
    { unfold fits, len in *. cbn [length] in Hitems.
      apply andb_true_iff. split; [apply bool_decide_eq_true_2; lia|].
      cbn [vle vadd int_volume]. apply Z.leb_le. lia. }
    cbn [fold_left]. unfold step. rewrite Hfits.
    rewrite IH.
    + rewrite <- app_assoc, fmap_cons, sum_cons. cbn [vadd int_volume app fold_left].
      do 2 f_equal. lia.
    + unfold len in *. rewrite length_app. cbn [length] in *. lia.
    + done.
    + cbn [vadd int_volume]. lia.
Qed.

(** With integer, non-negative volumes: when the whole queue respects
    both limits of the printer, everything is printed as one batch and
    [total_time] is the longest print time (0 for an empty queue). *)
Theorem all_fit_one_batch (print_jobs : list (PrintJob Z)) constraints :
  len print_jobs ≤ max_items constraints →
  Forall (λ job, 0 ≤ volume job) print_jobs →
  sum (volume <$> print_jobs) ≤ max_volume constraints →
  optimize_printing print_jobs constraints =
    {| print_order := id <$> sort_by_priority print_jobs;
       total_time := foldr Z.max 0 (print_time <$> print_jobs) |}.
Proof.
  intros Hitems Hvols Hvol.
  pose proof (sort_by_priority_perm print_jobs) as Hperm.
  rewrite (plan_eta (optimize_printing _ _)), print_order_sorted. f_equal.
  unfold optimize_printing, initial. rewrite run_all_fit.
  - rewrite finish_elapsed. cbn [elapsed app]. rewrite fold_left_max.
    rewrite (foldr_max_perm _ (print_time <$> print_jobs)) by (by rewrite Hperm).
    destruct (sort_by_priority print_jobs) eqn:Hsorted; [|lia].
    apply Permutation_nil_l in Hperm. by subst.
  - unfold len in *. rewrite Hperm. simpl. lia.
  - by rewrite Hperm.
  - cbn [vzero int_volume].
    rewrite (sum_perm _ (volume <$> print_jobs)) by (by rewrite Hperm). lia.
Qed.

Lemma all_fit_one_batch_witness :
  len [{| id := "M1"; volume := 100; priority := 2; print_time := 120 |};
       {| id := "M2"; volume := 150; priority := 1; print_time := 90 |}]
    ≤ max_items {| max_volume := 300; max_items := 2 |} ∧
  Forall (λ job : PrintJob Z, 0 ≤ volume job)
    [{| id := "M1"; volume := 100; priority := 2; print_time := 120 |};
     {| id := "M2"; volume := 150; priority := 1; print_time := 90 |}] ∧
  sum (volume <$>
    [{| id := "M1"; volume := 100; priority := 2; print_time := 120 |};
     {| id := "M2"; volume := 150; priority := 1; print_time := 90 |}])
    ≤ max_volume {| max_volume := 300; max_items := 2 |} ∧
  optimize_printing
    [{| id := "M1"; volume := 100; priority := 2; print_time := 120 |};
     {| id := "M2"; volume := 150; priority := 1; print_time := 90 |}]
    {| max_volume := 300; max_items := 2 |} =
    {| print_order := id <$> sort_by_priority
         [{| id := "M1"; volume := 100; priority := 2; print_time := 120 |};
          {| id := "M2"; volume := 150; priority := 1; print_time := 90 |}];
       total_time := foldr Z.max 0 (print_time <$>
         [{| id := "M1"; volume := 100; priority := 2; print_time := 120 |};
          {| id := "M2"; volume := 150; priority := 1; print_time := 90 |}]) |}.
Proof.
  assert (Hitems : len
      [{| id := "M1"; volume := 100; priority := 2; print_time := 120 |};
       {| id := "M2"; volume := 150; priority := 1; print_time := 90 |}]
    ≤ max_items {| max_volume := 300; max_items := 2 |})
    by (unfold len; simpl; lia).
  assert (Hvols : Forall (λ job : PrintJob Z, 0 ≤ volume job)
    [{| id := "M1"; volume := 100; priority := 2; print_time := 120 |};
     {| id := "M2"; volume := 150; priority := 1; print_time := 90 |}])
    by (repeat constructor; simpl; lia).
  assert (Hvol : sum (volume <$>
    [{| id := "M1"; volume := 100; priority := 2; print_time := 120 |};
     {| id := "M2"; volume := 150; priority := 1; print_time := 90 |}])
    ≤ max_volume {| max_volume := 300; max_items := 2 |})
    by (vm_compute; discriminate).
  split; [exact Hitems|]. split; [exact Hvols|]. split; [exact Hvol|].
  exact (all_fit_one_batch _ _ Hitems Hvols Hvol).
Defined.


End PrintQueueFacts.
